(** * NzObject: an object-storage gateway (src/server.js)

    A shallow embedding of the Express application of [src/server.js] and of
    the Prisma schema next to it, together with the properties of its
    request authenticator, its storage-quota accounting and its object
    handlers.

    The program talks to four libraries.  Each one is modelled by the part
    of its documented behaviour the handlers rely on:

    - [NodePath]: Node's POSIX [path.join] / [path.normalize];
    - [JsNumber]: ECMAScript's [parseInt] with no radix argument;
    - [NodeFs]:   the [fs.promises] calls made by the handlers, over a map
                  from path to node (regular file or directory);
    - [Crypto]:   [crypto.createHmac('sha256', k).update(m).digest('hex')]
                  and [crypto.createHash('md5').update(b).digest('hex')],
                  kept abstract as a type class.

    Prisma's two tables are a [gmap] keyed by the unique [accessKeyId] and
    a list of bucket rows. *)

From Stdlib Require Import ZArith Strings.Ascii Strings.String Strings.Byte.
From stdpp Require Import gmap strings list.

Open Scope Z_scope.
Open Scope string_scope.

(** ** JavaScript strings

    Header values, route parameters and file names are JavaScript strings
    whose characters are Latin-1 code points (Node decodes header bytes as
    Latin-1), so [string] (a list of 8-bit [ascii]) represents them
    exactly. *)

Definition js_truthy (s : option string) : bool :=
  match s with
  | None => false            (* undefined *)
  | Some "" => false         (* the empty string is falsy *)
  | Some _ => true
  end.

(** ** [path.join] (Node, POSIX flavour) *)

Module NodePath.

Definition slash : ascii := "/"%char.

(** The segments of a string between its separators:
    [split "a//b" = ["a"; ""; "b"]], [split "" = [""]]. *)
Fixpoint split (s : string) : list string :=
  match s with
  | EmptyString => [EmptyString]
  | String c s' =>
      if Ascii.eqb c slash then EmptyString :: split s'
      else match split s' with
           | [] => [String c EmptyString]
           | seg :: segs => String c seg :: segs
           end
  end.

(** One turn of the loop of [normalizeString] at a separator; [res] holds
    the segments kept so far, the last one first. *)
Definition normalizeSegment (allowAboveRoot : bool)
    (res : list string) (seg : string) : list string :=
  if bool_decide (seg = "" ∨ seg = ".") then res
  else if bool_decide (seg = "..") then
    match res with
    | last :: res' =>
        if bool_decide (last = "..")
        then (if allowAboveRoot then ".." :: res else res)
        else res'
    | [] => if allowAboveRoot then [".."] else []
    end
  else seg :: res.

Definition normalizeString (allowAboveRoot : bool) (segs : list string)
    : list string :=
  rev (fold_left (normalizeSegment allowAboveRoot) segs []).

Fixpoint joinWith (sep : string) (segs : list string) : string :=
  match segs with
  | [] => ""
  | [s] => s
  | s :: rest => s +:+ sep +:+ joinWith sep rest
  end.

Definition startsWithSlash (p : string) : bool :=
  match p with
  | String c _ => Ascii.eqb c slash
  | EmptyString => false
  end.

Fixpoint endsWithSlash (p : string) : bool :=
  match p with
  | EmptyString => false
  | String c EmptyString => Ascii.eqb c slash
  | String _ p' => endsWithSlash p'
  end.

(** [path.posix.normalize] *)
Definition normalize (p : string) : string :=
  if bool_decide (p = "") then "."
  else
    let isAbsolute := startsWithSlash p in
    let trailingSeparator := endsWithSlash p in
    let res := joinWith "/" (normalizeString (negb isAbsolute) (split p)) in
    if bool_decide (res = "") then
      (if isAbsolute then "/" else if trailingSeparator then "./" else ".")
    else
      (if isAbsolute then "/" else "") +:+ res +:+
      (if trailingSeparator then "/" else "").

(** [path.posix.join]: the non-empty arguments, separated by "/", then
    normalised; "." when nothing is left. *)
Definition join (args : list string) : string :=
  let joined := joinWith "/" (filter (λ a, a ≠ "") args) in
  if bool_decide (joined = "") then "." else normalize joined.

(** *** Vocabulary for the facts about [join] *)

(** A string without a separator. *)
Fixpoint noSlash (s : string) : bool :=
  match s with
  | EmptyString => true
  | String c s' => negb (Ascii.eqb c slash) && noSlash s'
  end.

(** Stacks that [normalizeString] keeps, last segment first. *)
Inductive nf (allow : bool) : list string → Prop :=
  | nf_nil : nf allow []
  | nf_cons seg res :
      nf allow res → noSlash seg = true → seg ≠ "" → seg ≠ "." →
      (seg = ".." → allow = true ∧ (res = [] ∨ ∃ res', res = ".." :: res')) →
      nf allow (seg :: res).

(** The string [normalize] builds from what it computed. *)
Definition render (isAbsolute trailingSeparator : bool) (segs : list string)
    : string :=
  let res := joinWith "/" segs in
  if bool_decide (res = "") then
    (if isAbsolute then "/" else if trailingSeparator then "./" else ".")
  else
    (if isAbsolute then "/" else "") +:+ res +:+
    (if trailingSeparator then "/" else "").

(** A name that is one ordinary path segment. *)
Definition plain (f : string) : Prop :=
  noSlash f = true ∧ f ≠ "" ∧ f ≠ "." ∧ f ≠ "..".

End NodePath.

(** ** [parseInt] (ECMAScript, no radix argument)

    [None] is NaN.  The result of [parseInt] is a double; the model keeps
    the mathematical integer.  The only use made of it is the comparison
    with [Date.now() - 15 * 60 * 1000], a safe integer, and rounding an
    integer to the nearest double does not move it across a safe integer,
    so the comparison is the same. *)

Module JsNumber.

(** WhiteSpace and LineTerminator code points below 256. *)
Definition isWhiteSpace (c : ascii) : bool :=
  let n := N_of_ascii c in
  bool_decide (n ∈ [9; 10; 11; 12; 13; 32; 160]%N).

Fixpoint trimStart (s : string) : string :=
  match s with
  | String c s' => if isWhiteSpace c then trimStart s' else s
  | EmptyString => EmptyString
  end.

Definition digitValue (c : ascii) : option Z :=
  let n := Z.of_N (N_of_ascii c) in
  if bool_decide (48 ≤ n ≤ 57)%Z then Some (n - 48)%Z          (* 0-9 *)
  else if bool_decide (97 ≤ n ≤ 122)%Z then Some (n - 87)%Z    (* a-z *)
  else if bool_decide (65 ≤ n ≤ 90)%Z then Some (n - 55)%Z     (* A-Z *)
  else None.

(** Value of the longest prefix of [s] made of digits of [radix];
    [acc] is [None] until a digit has been read. *)
Fixpoint digits (radix : Z) (s : string) (acc : option Z) : option Z :=
  match s with
  | EmptyString => acc
  | String c s' =>
      match digitValue c with
      | Some d =>
          if bool_decide (d < radix)
          then digits radix s' (Some (default 0 acc * radix + d))
          else acc
      | None => acc
      end
  end.

Definition parseInt (input : string) : option Z :=
  let s := trimStart input in
  let '(sign, s) :=
    match s with
    | String "-" r => (-1, r)
    | String "+" r => (1, r)
    | _ => (1, s)
    end in
  let '(radix, s) :=
    match s with
    | String "0" (String "x" r) => (16, r)
    | String "0" (String "X" r) => (16, r)
    | _ => (10, s)
    end in
  match digits radix s None with
  | Some n => Some (sign * n)
  | None => None
  end.

(** [a < b] on Numbers where [a] may be NaN: false when it is. *)
Definition lt (a : option Z) (b : Z) : bool :=
  match a with
  | Some n => bool_decide (n < b)
  | None => false
  end.

End JsNumber.

(** ** Exceptions

    A thrown JavaScript error is represented by its [message].  System
    errors of [fs] are abbreviated to their errno name. *)

Inductive result (A : Type) : Type :=
  | Ok (a : A)
  | Throw (message : string).
Arguments Ok {A} a.
Arguments Throw {A} message.

(** ** [fs.promises]

    The backing store maps a path, as [path.join] returned it, to what is
    there.  A path that ends in a separator names the directory before the
    separator.  The parent directories of a path are not consulted; a
    failure they would cause in a real file system takes the same branch of
    a handler as the failures modelled here.  A property that needs a call
    to succeed has the directories the call needs as hypotheses. *)

Inductive node : Type :=
  | File (data : list byte)
  | Dir.

Module NodeFs.

Fixpoint dropTrailingSlash (p : string) : string :=
  match p with
  | EmptyString => EmptyString
  | String c EmptyString =>
      if Ascii.eqb c NodePath.slash then EmptyString else p
  | String c p' => String c (dropTrailingSlash p')
  end.

(** What a path resolves to. *)
Definition resolve (fs : gmap string node) (p : string) : option node :=
  if NodePath.endsWithSlash p then
    match fs !! dropTrailingSlash p with
    | Some Dir => Some Dir
    | _ => None
    end
  else fs !! p.

(** [fs.mkdir(p, { recursive: true })] *)
Definition mkdir (p : string) (fs : gmap string node)
    : result (gmap string node) :=
  let q := dropTrailingSlash p in
  match fs !! q with
  | Some (File _) => Throw "EEXIST"
  | _ => Ok (<[q := Dir]> fs)
  end.

(** [fs.writeFile(p, data)]: creates the file or replaces its content. *)
Definition writeFile (p : string) (data : list byte) (fs : gmap string node)
    : result (gmap string node) :=
  if NodePath.endsWithSlash p then Throw "EISDIR"
  else match fs !! p with
       | Some Dir => Throw "EISDIR"
       | _ => Ok (<[p := File data]> fs)
       end.

(** [fs.readFile(p)] *)
Definition readFile (p : string) (fs : gmap string node)
    : result (list byte) :=
  match resolve fs p with
  | Some (File data) => Ok data
  | Some Dir => Throw "EISDIR"
  | None => Throw "ENOENT"
  end.

(** [fs.access(p)] *)
Definition access (p : string) (fs : gmap string node) : result unit :=
  match resolve fs p with
  | Some _ => Ok ()
  | None => Throw "ENOENT"
  end.

(** The size reported for a directory; no handler uses it, since
    [unlink] fails on a directory. *)
Definition dirSize : Z := 4096.

(** [(await fs.stat(p)).size] *)
Definition stat_size (p : string) (fs : gmap string node) : result Z :=
  match resolve fs p with
  | Some (File data) => Ok (Z.of_nat (length data))
  | Some Dir => Ok dirSize
  | None => Throw "ENOENT"
  end.

(** [fs.unlink(p)] *)
Definition unlink (p : string) (fs : gmap string node)
    : result (gmap string node) :=
  if NodePath.endsWithSlash p then Throw "ENOTDIR"
  else match fs !! p with
       | Some (File _) => Ok (delete p fs)
       | Some Dir => Throw "EISDIR"
       | None => Throw "ENOENT"
       end.

End NodeFs.

(** ** [crypto] *)

Class Crypto : Type := {
  (** [createHmac('sha256', key).update(message).digest('hex')] *)
  hmac_sha256_hex : string → string → string;
  (** [createHash('md5').update(data).digest('hex')] *)
  md5_hex : list byte → string;
}.

(** ** The metadata store (prisma/schema.prisma)

    [model ApiKey]: [accessKeyId] is [@unique], [plan] a String,
    [storageUsed] a BigInt that defaults to 0.  [model Bucket]: rows
    [(name, accessKeyId)], unique as a pair. *)

Record ApiKey : Type := mkApiKey {
  secretAccessKey : string;
  plan : string;
  storageUsed : Z;
}.


Record Bucket : Type := mkBucket {
  name : string;
  owner : string;       (* column accessKeyId *)
}.

Record State : Type := mkState {
  apiKeys : gmap string ApiKey;     (* prisma.apiKey, by accessKeyId *)
  buckets : list Bucket;            (* prisma.bucket, in insertion order *)
  disk : gmap string node;          (* the file system *)
}.

Definition set_apiKeys (f : gmap string ApiKey → gmap string ApiKey) (st : State) : State :=
  mkState (f (apiKeys st)) (buckets st) (disk st).
Definition set_buckets (f : list Bucket → list Bucket) (st : State) : State :=
  mkState (apiKeys st) (f (buckets st)) (disk st).
Definition set_disk (f : gmap string node → gmap string node) (st : State) : State :=
  mkState (apiKeys st) (buckets st) (f (disk st)).

(** ** Awaited calls: state and exceptions

    An [async] body is a function from the state of the two stores to a
    value or a thrown error, with the state left behind.  Nothing is rolled
    back when a call throws. *)

Definition Async (A : Type) : Type := State → result A * State.

Definition async_ret {A} (a : A) : Async A := λ st, (Ok a, st).
Definition async_throw {A} (message : string) : Async A := λ st, (Throw message, st).
Definition async_bind {A B} (m : Async A) (k : A → Async B) : Async B :=
  λ st, match m st with
        | (Ok a, st') => k a st'
        | (Throw e, st') => (Throw e, st')
        end.

Notation "x ←await m ; k" := (async_bind m (λ x, k))
  (at level 20, m at level 100, k at level 200, right associativity,
   format "x  ←await  m ;  '/' k").
Notation "'await' m ; k" := (async_bind m (λ _, k))
  (at level 20, m at level 100, k at level 200, right associativity,
   format "'await'  m ;  '/' k").

(** A call on the file system that may replace it. *)
Definition on_disk (op : gmap string node → result (gmap string node)) : Async unit :=
  λ st, match op (disk st) with
        | Ok fs' => (Ok (), set_disk (λ _, fs') st)
        | Throw e => (Throw e, st)
        end.

(** A call on the file system that only reads it. *)
Definition from_disk {A} (op : gmap string node → result A) : Async A :=
  λ st, (op (disk st), st).

(** ** Responses *)

Inductive Json : Type :=
  | JsonError (error : string)                       (* { error } *)
  | JsonMessage (message : string)                   (* { message } *)
  | JsonETag (etag : string)                         (* { ETag } *)
  | JsonBuckets (names : list string)                (* { Buckets: [{ Name }] } *)
  | JsonAccessKey (accessKeyId secret plan : string)
  | Empty                                            (* send() *)
  | FileStream (path : string).                      (* handed over to send *)

Record Response : Type := mkResponse {
  status : Z;
  payload : Json;
}.

(** The error kinds of the specification, as the responses that carry
    them. *)
Definition MissingCredentials := mkResponse 401 (JsonError "Missing authentication headers").
Definition UnknownIdentity := mkResponse 401 (JsonError "Invalid Access ID").
Definition RequestExpired := mkResponse 401 (JsonError "Request expired").
Definition InvalidSignature := mkResponse 401 (JsonError "Invalid signature").
Definition BucketNotFound := mkResponse 404 (JsonError "Bucket not found").
Definition ObjectNotFound := mkResponse 404 (JsonError "Object not found").
Definition StorageLimitExceeded := mkResponse 403 (JsonError "Storage limit exceeded").
Definition FailedToSave := mkResponse 500 (JsonError "Failed to save data").

(** ** Requests

    [req.file] is what multer's memory storage leaves for a multipart
    upload ([size] is the length of [buffer]); [req.body] is the [Buffer]
    that [bodyParser.raw] leaves for any other body, which it does for
    bodies of up to 10 MiB.  The object routes are modelled for these two
    payloads.  Bodies decoded by [bodyParser.json] reach the admin
    handlers, as [bodyPlan], [bodyAccessKeyId] and [bodyBucketName]; a
    request that brings such a body to the upload route is not among the
    requests of the model, and what is proved of uploads is proved of
    the two payloads above. *)

Record UploadedFile : Type := mkUploadedFile {
  originalname : string;
  buffer : list byte;
}.

Definition size (f : UploadedFile) : Z := Z.of_nat (length (buffer f)).

Record Request : Type := mkRequest {
  method : string;
  originalUrl : string;
  xAccessID : option string;        (* req.header('X-Access-ID') *)
  xSignature : option string;       (* req.header('X-Signature') *)
  xTimestamp : option string;       (* req.header('X-Timestamp') *)
  xFileName : option string;        (* req.header('X-File-Name') *)
  xAdminAPIKey : option string;     (* req.header('X-Admin-API-Key') *)
  file : option UploadedFile;       (* req.file *)
  body : option (list byte);        (* req.body, a Buffer *)
  bodyPlan : option string;         (* req.body.plan *)
  bodyAccessKeyId : option string;  (* req.body.accessKeyId *)
  bodyBucketName : option string;   (* req.body.bucketName *)
}.

(** ** Constants of the program *)

Definition STORAGE_ROOT : string := "storage".
Definition ADMIN_API_KEY : string := "super-secret-admin-key".

(** [STORAGE_LIMITS[plan]] as far as [>] can tell: the number under the
    key "free"; [None] for every other key, where the lookup gives
    [undefined] or a member inherited from [Object.prototype], neither of
    which converts to a number or a BigInt. *)
Definition STORAGE_LIMITS (plan : string) : option Z :=
  if bool_decide (plan = "free") then Some (1024 * 1024 * 1024) else None.

(** [n > limit] for a BigInt [n]: false when [limit] is not numeric. *)
Definition js_gt (n : Z) (limit : option Z) : bool :=
  match limit with
  | Some l => bool_decide (l < n)%Z
  | None => false
  end.

(** ** [Buffer.toString('hex')] and [Buffer.toString('base64')] *)

Module NodeBuffer.

Definition charAt (alphabet : string) (i : N) : ascii :=
  default "?"%char (String.get (N.to_nat i) alphabet).

Definition hexDigits : string := "0123456789abcdef".
Definition base64Digits : string :=
  "ABCDEFGHIJKLMNOPQRSTUVWXYZabcdefghijklmnopqrstuvwxyz0123456789+/".

Fixpoint toHex (bs : list byte) : string :=
  match bs with
  | [] => ""
  | b :: rest =>
      let n := Byte.to_N b in
      String (charAt hexDigits (n / 16))
        (String (charAt hexDigits (n mod 16)) (toHex rest))
  end.

Definition sextet (n : N) (shift : N) : ascii :=
  charAt base64Digits (N.shiftr n shift mod 64).

Fixpoint toBase64 (bs : list byte) : string :=
  match bs with
  | [] => ""
  | [a] =>
      let n := (Byte.to_N a * 65536)%N in
      String (sextet n 18) (String (sextet n 12) "==")
  | [a; b] =>
      let n := (Byte.to_N a * 65536 + Byte.to_N b * 256)%N in
      String (sextet n 18) (String (sextet n 12) (String (sextet n 6) "="))
  | a :: b :: c :: rest =>
      let n := (Byte.to_N a * 65536 + Byte.to_N b * 256 + Byte.to_N c)%N in
      String (sextet n 18) (String (sextet n 12)
        (String (sextet n 6) (String (sextet n 0) (toBase64 rest))))
  end.

End NodeBuffer.

(** ** [res.sendFile] (Express)

    [res.sendFile(path)] called without a [root] option throws
    [TypeError: path must be absolute or specify root to res.sendFile]
    unless [path] is absolute; the test is synchronous, so the error is
    thrown to the caller.  [isAbsolute] is the test of Express 4
    ([lib/utils.js]): a leading "/", a drive letter followed by a
    separator, or a leading double backslash.  (Express 5 uses Node's
    [path.isAbsolute], the first of the three.)  For an absolute path the
    response is handed over to [send], which this model does not follow. *)

Module Express.

Definition isAbsolute (p : string) : bool :=
  match p with
  | String c0 rest =>
      Ascii.eqb c0 "/"
      || match rest with
         | String c1 (String c2 _) =>
             Ascii.eqb c1 ":" && (Ascii.eqb c2 "\" || Ascii.eqb c2 "/")
         | _ => false
         end
      || match rest with
         | String c1 _ => Ascii.eqb c0 "\" && Ascii.eqb c1 "\"
         | _ => false
         end
  | EmptyString => false
  end.

Definition sendFile (p : string) : result Response :=
  if bool_decide (p = "") then
    Throw "path argument is required to res.sendFile"
  else if isAbsolute p then Ok (mkResponse 200 (FileStream p))
  else Throw "path must be absolute or specify root to res.sendFile".

End Express.

(** ** The handlers of src/server.js *)

Section Server.

Context `{Crypto}.

(** What a middleware did: it responded, it called [next()], or its
    promise rejected. *)
Inductive Middleware : Type :=
  | Responded (r : Response)
  | Next (userStorageRoot : string) (st : State)
  | Rejection (message : string) (st : State).

(** [authenticateAdmin]: [true] when it calls [next()], else it answers
    401. *)
Definition authenticateAdmin (req : Request) : bool :=
  bool_decide (xAdminAPIKey req = Some ADMIN_API_KEY).

(** [authenticateRequest]; [now] is [Date.now()]. *)
Definition authenticateRequest (now : Z) (req : Request) (st : State)
    : Middleware :=
  if negb (js_truthy (xAccessID req)) || negb (js_truthy (xSignature req))
     || negb (js_truthy (xTimestamp req))
  then Responded MissingCredentials
  else
    match xAccessID req, xSignature req, xTimestamp req with
    | Some accessId, Some signature, Some timestamp =>
        match apiKeys st !! accessId with
        | None => Responded UnknownIdentity
        | Some apiKey =>
            (* Check if the timestamp is within 15 minutes *)
            let fifteenMinutesAgo := (now - 15 * 60 * 1000)%Z in
            if JsNumber.lt (JsNumber.parseInt timestamp) fifteenMinutesAgo
            then Responded RequestExpired
            else
              let computedSignature :=
                hmac_sha256_hex (secretAccessKey apiKey)
                  (method req +:+ originalUrl req +:+ timestamp) in
              if bool_decide (computedSignature ≠ signature)
              then Responded InvalidSignature
              else
                (* Set user-specific storage root and ensure it exists *)
                let userStorageRoot := NodePath.join [STORAGE_ROOT; accessId] in
                match NodeFs.mkdir userStorageRoot (disk st) with
                | Ok fs' => Next userStorageRoot (set_disk (λ _, fs') st)
                | Throw e => Rejection e st
                end
        end
    | _, _, _ => Responded MissingCredentials
    end.

(** [bucketExists] *)
Definition bucketExists (accessKeyId bucketName : string) (st : State) : bool :=
  existsb (λ b, bool_decide (name b = bucketName ∧ owner b = accessKeyId))
          (buckets st).

(** [prisma.apiKey.update({ where: { accessKeyId }, data })]: throws when
    there is no such row. *)
Definition updateApiKey (accessKeyId : string) (f : ApiKey → ApiKey) : Async unit :=
  λ st, match apiKeys st !! accessKeyId with
        | Some apiKey => (Ok (), set_apiKeys (insert accessKeyId (f apiKey)) st)
        | None => (Throw "Record to update not found.", st)
        end.

Definition set_storageUsed (n : Z) (k : ApiKey) : ApiKey :=
  mkApiKey (secretAccessKey k) (plan k) n.

(** [checkStorageLimit] *)
Definition checkStorageLimit (accessKeyId : string) (fileSize : Z) : Async unit :=
  λ st, match apiKeys st !! accessKeyId with
        | None => (Throw "Invalid Access ID", st)
        | Some apiKey =>
            let newStorageUsed := (storageUsed apiKey + fileSize)%Z in
            if js_gt newStorageUsed (STORAGE_LIMITS (plan apiKey))
            then (Throw "Storage limit exceeded", st)
            else updateApiKey accessKeyId (set_storageUsed newStorageUsed) st
        end.

(** The awaited calls of either branch of the upload handler, down to
    the ETag. *)
Definition saveObject (accessKeyId filePath : string) (fileSize : Z)
    (data : list byte) : Async string :=
  await checkStorageLimit accessKeyId fileSize;
  await on_disk (NodeFs.writeFile filePath data);
  fileContent ←await from_disk (NodeFs.readFile filePath);
  async_ret (md5_hex fileContent).

(** The [try { ... res.status(201) } catch (error) { ... }] of the upload
    handler. *)
Definition respondSaved (m : Async string) (st : State) : Response * State :=
  match m st with
  | (Ok etag, st') => (mkResponse 201 (JsonETag etag), st')
  | (Throw message, st') =>
      if bool_decide (message = "Storage limit exceeded")
      then (StorageLimitExceeded, st')
      else (FailedToSave, st')
  end.

(** [app.post('/buckets/:bucketName/objects')] *)
Definition postObject (accessKeyId userStorageRoot bucketName : string)
    (req : Request) (st : State) : Response * State :=
  let bucketPath := NodePath.join [userStorageRoot; bucketName] in
  if negb (bucketExists accessKeyId bucketName st) then (BucketNotFound, st)
  else
    match file req with
    | Some f =>
        let fileName := originalname f in
        let filePath := NodePath.join [bucketPath; fileName] in
        let fileSize := size f in
        respondSaved (saveObject accessKeyId filePath fileSize (buffer f)) st
    | None =>
        match body req with
        | Some data =>
            match xFileName req with
            | Some fileName =>
                if negb (js_truthy (Some fileName)) then
                  (mkResponse 400 (JsonError "X-File-Name header is required for raw data uploads"), st)
                else
                  let filePath := NodePath.join [bucketPath; fileName] in
                  let fileSize := Z.of_nat (length data) in
                  respondSaved (saveObject accessKeyId filePath fileSize data) st
            | None =>
                (mkResponse 400 (JsonError "X-File-Name header is required for raw data uploads"), st)
            end
        | None => (mkResponse 400 (JsonError "No file or data uploaded"), st)
        end
    end.

(** [app.get('/buckets/:bucketName/objects/:objectKey')] *)
Definition getObject (accessKeyId userStorageRoot bucketName objectKey : string)
    (st : State) : Response * State :=
  let filePath := NodePath.join [userStorageRoot; bucketName; objectKey] in
  if negb (bucketExists accessKeyId bucketName st) then (BucketNotFound, st)
  else
    match (await from_disk (NodeFs.access filePath);
           λ st', (Express.sendFile filePath, st')) st with
    | (Ok r, st') => (r, st')
    | (Throw _, st') => (ObjectNotFound, st')
    end.

(** [app.delete('/buckets/:bucketName/objects/:objectKey')] *)
Definition deleteObject (accessKeyId userStorageRoot bucketName objectKey : string)
    (st : State) : Response * State :=
  let filePath := NodePath.join [userStorageRoot; bucketName; objectKey] in
  if negb (bucketExists accessKeyId bucketName st) then (BucketNotFound, st)
  else
    match (fileStats_size ←await from_disk (NodeFs.stat_size filePath);
           await on_disk (NodeFs.unlink filePath);
           (* Update storage used *)
           await updateApiKey accessKeyId
                   (λ k, set_storageUsed (storageUsed k - fileStats_size) k);
           async_ret (mkResponse 204 Empty)) st with
    | (Ok r, st') => (r, st')
    | (Throw _, st') => (ObjectNotFound, st')
    end.

(** [app.get('/buckets')] *)
Definition listBuckets (accessKeyId : string) (st : State) : Response * State :=
  (mkResponse 200
     (JsonBuckets (map name (filter (λ b, owner b = accessKeyId) (buckets st)))),
   st).

(** What the client of a request gets: an answer, or none when the
    handler's promise rejects (there is no error middleware). *)
Inductive Served : Type :=
  | Answer (r : Response)
  | NoAnswer (message : string).

(** [app.post('/admin/create-access-key')], past [authenticateAdmin];
    [random16] and [random32] are the two draws of [crypto.randomBytes]. *)
Definition createAccessKey (random16 random32 : list byte) (req : Request)
    (st : State) : Served * State :=
  let plan := default "free" (bodyPlan req) in
  let accessKeyId := NodeBuffer.toHex random16 in
  let secretAccessKey := NodeBuffer.toBase64 random32 in
  match apiKeys st !! accessKeyId with
  | Some _ => (NoAnswer "Unique constraint failed on the fields: (`accessKeyId`)", st)
  | None =>
      (Answer (mkResponse 200 (JsonAccessKey accessKeyId secretAccessKey plan)),
       set_apiKeys (insert accessKeyId (mkApiKey secretAccessKey plan 0)) st)
  end.

(** [prisma.bucket.create]: the pair [(name, accessKeyId)] is unique. *)
Definition createBucketRow (bucketName accessKeyId : string) : Async unit :=
  λ st, if bucketExists accessKeyId bucketName st
        then (Throw "Unique constraint failed on the fields: (`name`,`accessKeyId`)", st)
        else (Ok (), set_buckets (λ bs, (bs ++ [mkBucket bucketName accessKeyId])%list) st).

(** [app.post('/admin/create-bucket')], past [authenticateAdmin]. *)
Definition createBucket (req : Request) (st : State) : Response * State :=
  if negb (js_truthy (bodyAccessKeyId req)) || negb (js_truthy (bodyBucketName req))
  then (mkResponse 400 (JsonError "Missing accessKeyId or bucketName"), st)
  else
    match bodyAccessKeyId req, bodyBucketName req with
    | Some accessKeyId, Some bucketName =>
        match apiKeys st !! accessKeyId with
        | None => (mkResponse 404 (JsonError "Access key not found"), st)
        | Some _ =>
            let userStorageRoot := NodePath.join [STORAGE_ROOT; accessKeyId] in
            let bucketPath := NodePath.join [userStorageRoot; bucketName] in
            match (await on_disk (NodeFs.mkdir bucketPath);
                   await createBucketRow bucketName accessKeyId;
                   async_ret (mkResponse 200 (JsonMessage "Bucket created successfully"))) st with
            | (Ok r, st') => (r, st')
            | (Throw _, st') =>
                (mkResponse 500 (JsonError "Failed to create bucket"), st')
            end
        end
    | _, _ => (mkResponse 400 (JsonError "Missing accessKeyId or bucketName"), st)
    end.

(** The route a request matches (method and path of the [app.post],
    [app.get] and [app.delete] declarations), with its [req.params]. *)
Inductive Route : Type :=
  | CreateAccessKey (random16 random32 : list byte)
  | CreateBucket
  | PostObject (bucketName : string)
  | GetObject (bucketName objectKey : string)
  | DeleteObject (bucketName objectKey : string)
  | ListBuckets.

Definition answered (r : Response * State) : Served * State := (Answer r.1, r.2).

(** The middleware chain in the order of its declarations: the admin
    routes behind [authenticateAdmin], then [app.use(authenticateRequest)],
    then the object routes. *)
Definition handle (now : Z) (route : Route) (req : Request) (st : State)
    : Served * State :=
  match route with
  | CreateAccessKey random16 random32 =>
      if authenticateAdmin req then createAccessKey random16 random32 req st
      else (Answer (mkResponse 401 (JsonError "Unauthorized")), st)
  | CreateBucket =>
      if authenticateAdmin req then answered (createBucket req st)
      else (Answer (mkResponse 401 (JsonError "Unauthorized")), st)
  | _ =>
      match authenticateRequest now req st with
      | Responded r => (Answer r, st)
      | Rejection message st' => (NoAnswer message, st')
      | Next userStorageRoot st' =>
          (* req.header('X-Access-ID'), present once authenticated *)
          let accessKeyId := default "" (xAccessID req) in
          match route with
          | PostObject bucketName =>
              answered (postObject accessKeyId userStorageRoot bucketName req st')
          | GetObject bucketName objectKey =>
              answered (getObject accessKeyId userStorageRoot bucketName objectKey st')
          | DeleteObject bucketName objectKey =>
              answered (deleteObject accessKeyId userStorageRoot bucketName objectKey st')
          | _ => answered (listBuckets accessKeyId st')
          end
      end
  end.

(** The stores when the server starts: empty tables,
    [fs.mkdir(STORAGE_ROOT, { recursive: true })] done. *)
Definition initial : State := mkState ∅ [] {[ STORAGE_ROOT := Dir ]}.

(** Requests served one after the other. *)
Definition run (requests : list (Z * Route * Request)) (st : State) : State :=
  fold_left (λ st '(now, route, req), (handle now route req st).2) requests st.

End Server.

(** ** Quantities the specification speaks of *)

(** Bytes-used of an owner: [apiKey.storageUsed]. *)
Definition bytesUsed (accessKeyId : string) (st : State) : option Z :=
  storageUsed <$> apiKeys st !! accessKeyId.

(** The content stored under a path, if a regular file is there. *)
Definition stored (p : string) (st : State) : option (list byte) :=
  match NodeFs.resolve (disk st) p with
  | Some (File data) => Some data
  | _ => None
  end.

(** The storage root of an owner, as [authenticateRequest] binds it to the
    request. *)
Definition userRoot (accessKeyId : string) : string :=
  NodePath.join [STORAGE_ROOT; accessKeyId].

(** The storage location of the object (owner, bucket, key), as the read
    and delete handlers compute it. *)
Definition objectPath (accessKeyId bucketName key : string) : string :=
  NodePath.join [userRoot accessKeyId; bucketName; key].

(** Whether path [p] lies under the storage root of an owner. *)
Definition under (accessKeyId : string) (p : string) : bool :=
  String.prefix (userRoot accessKeyId +:+ "/") p.

(** Sum of the sizes of the files stored under an owner's root. *)
Definition storedBytes (accessKeyId : string) (fs : gmap string node) : Z :=
  map_fold (λ p n acc,
              match n with
              | File data =>
                  if under accessKeyId p then (acc + Z.of_nat (length data))%Z else acc
              | Dir => acc
              end) 0%Z fs.

(** The write a request to the upload route asks for: key and content, for
    a multipart file, else for a raw body named by [X-File-Name]. *)
Definition upload (req : Request) : option (string * list byte) :=
  match file req with
  | Some f => Some (originalname f, buffer f)
  | None =>
      match body req, xFileName req with
      | Some data, Some fileName =>
          if js_truthy (Some fileName) then Some (fileName, data) else None
      | _, _ => None
      end
  end.

(** Where the upload handler writes key [key] of a bucket. *)
Definition uploadPath (userStorageRoot bucketName key : string) : string :=
  NodePath.join [NodePath.join [userStorageRoot; bucketName]; key].

(** The state a middleware leaves behind. *)
Definition stateAfter (m : Middleware) (st : State) : State :=
  match m with
  | Responded _ => st
  | Next _ st' => st'
  | Rejection _ st' => st'
  end.

(** ** Sample credentials, requests and runs

    Concrete inputs on which the handlers are evaluated below. *)

Module Sample.

(** Stand-ins for the two digests.  The handlers only compare the results
    of [hmac_sha256_hex] with one another and pass [md5_hex] on, so any
    pair of functions exercises them. *)
Definition crypto : Crypto :=
  {| hmac_sha256_hex key message := key +:+ "." +:+ message;
     md5_hex data := NodeBuffer.toHex data |}.

Definition now : Z := 1700000000000.
Definition timestamp : string := "1700000000000".

(** Two credentials as [/admin/create-access-key] makes them, from the
    random draws 00...00 and 11...11. *)
Definition randomA16 : list byte := repeat x00 16.
Definition randomA32 : list byte := repeat x00 32.
Definition randomB16 : list byte := repeat x11 16.
Definition randomB32 : list byte := repeat x11 32.

Definition idA : string := "00000000000000000000000000000000".
Definition idB : string := "11111111111111111111111111111111".
Definition secretA : string := "AAAAAAAAAAAAAAAAAAAAAAAAAAAAAAAAAAAAAAAAAAA=".
Definition secretB : string := "ERERERERERERERERERERERERERERERERERERERERERE=".

Definition createKeyRequest (plan : option string) : Request :=
  mkRequest "POST" "/admin/create-access-key" None None None None
    (Some ADMIN_API_KEY) None None plan None None.

Definition createBucketRequest (accessKeyId bucketName : string) : Request :=
  mkRequest "POST" "/admin/create-bucket" None None None None
    (Some ADMIN_API_KEY) None None None (Some accessKeyId) (Some bucketName).

(** A request of the owner of [secret], signed as the server expects over
    the timestamp [at_]. *)
Definition signedAt `{Crypto} (at_ accessKeyId secret method url : string)
    (fileName : option string) (data : option (list byte)) : Request :=
  mkRequest method url (Some accessKeyId)
    (Some (hmac_sha256_hex secret (method +:+ url +:+ at_)))
    (Some at_) fileName None None data None None None.

Definition signed `{Crypto} := signedAt timestamp.

(** A raw upload of [data] under the name [fileName]. *)
Definition put `{Crypto} (accessKeyId secret bucketName fileName : string)
    (data : list byte) : Z * Route * Request :=
  (now, PostObject bucketName,
   signed accessKeyId secret "POST" ("/buckets/" +:+ bucketName +:+ "/objects")
     (Some fileName) (Some data)).

(** Both credentials made, one bucket made for each: "a" for A, "b" for B. *)
Definition provisioning : list (Z * Route * Request) :=
  [ (now, CreateAccessKey randomA16 randomA32, createKeyRequest None);
    (now, CreateAccessKey randomB16 randomB32, createKeyRequest None);
    (now, CreateBucket, createBucketRequest idA "a");
    (now, CreateBucket, createBucketRequest idB "b") ].

(** The key under which A's bucket "a" reaches [fileName] in B's bucket
    "b": object keys are joined onto the bucket path as they come. *)
Definition intoB (fileName : string) : string :=
  "../../" +:+ idB +:+ "/b/" +:+ fileName.


(** One stored object, written twice. *)
Definition putTwice `{Crypto} : list (Z * Route * Request) :=
  (provisioning ++
   [ put idA secretA "a" "f" [x01; x02; x03];
     put idA secretA "a" "f" [x04] ])%list.

(** B at the limit of the plan "free", with its bucket "b". *)
Definition atLimit : State :=
  mkState {[ idB := mkApiKey secretB "free" (1024 * 1024 * 1024) ]}
          [mkBucket "b" idB]
          {[ "storage" := Dir; userRoot idB := Dir;
             NodePath.join [userRoot idB; "b"] := Dir ]}.

(** A on a plan that [STORAGE_LIMITS] does not list, far above the limit
    of the plan that it does. *)
Definition unlisted : State :=
  mkState {[ idA := mkApiKey secretA "pro" (5 * 1024 * 1024 * 1024) ]}
          [mkBucket "a" idA]
          {[ "storage" := Dir; userRoot idA := Dir;
             NodePath.join [userRoot idA; "a"] := Dir ]}.

(** The stores once A has been issued its credential and has not yet
    sent a request. *)
Definition issued `{Crypto} : State := run (take 1 provisioning) initial.

(** The stores once both owners are provisioned. *)
Definition provisioned `{Crypto} : State := run provisioning initial.


(** *** Filling another owner's bucket *)

(** The largest body [bodyParser.raw({ limit: '10mb' })] lets through. *)
Definition chunkSize : Z := 10 * 1024 * 1024.
Definition chunk : list byte := repeat x00 (Z.to_nat chunkSize).

(** File names f, fx, fxx, ... *)
Fixpoint tally (i : nat) : string :=
  match i with
  | O => ""
  | S j => String "x" (tally j)
  end.
Definition fileName (i : nat) : string := String "f" (tally i).

(** Where [fileName] of B's bucket "b" is stored. *)
Definition inB (f : string) : string :=
  "storage/11111111111111111111111111111111/b/" +:+ f.

(** A puts [data] under the first [n] file names, each through its own
    bucket "a" and into B's bucket. *)
Definition flood `{Crypto} (data : list byte) (n : nat) : list (Z * Route * Request) :=
  map (λ i, put idA secretA "a" (intoB (fileName i)) data)
      (seq 0 n).

(** What holds of the stores once [n] of these uploads are served. *)
Record flooded (n : nat) (st : State) : Prop := {
  flooded_A :
    apiKeys st !! idA
    = Some (mkApiKey secretA "free" (Z.of_nat n * chunkSize));
  flooded_B :
    apiKeys st !! idB = Some (mkApiKey secretB "free" 0);
  flooded_buckets :
    buckets st = [mkBucket "a" idA; mkBucket "b" idB];
  flooded_rootA : ∀ d, disk st !! userRoot idA ≠ Some (File d);
  flooded_rootB : ∀ d, disk st !! userRoot idB ≠ Some (File d);
  flooded_free :
    ∀ f, f = "g" ∨ (∃ j, (n ≤ j)%nat ∧ f = fileName j) → disk st !! inB f = None;
  flooded_bytes : storedBytes idB (disk st) = (Z.of_nat n * chunkSize)%Z;
}.

End Sample.

(** ** Two sentences of the specification, as it words them

    Kept apart from the code so that the code can be held against them. *)

(** "Side effects: none beyond a lookup; this component never mutates
    state." *)
Definition authentication_mutates_nothing : Prop :=
  ∀ (crypto : Crypto) (now : Z) (req : Request) (st : State),
    stateAfter (authenticateRequest now req st) st = st.


(** ** Vocabulary for the further properties *)

(** The routes declared before [app.use(authenticateRequest)]. *)
Definition adminRoute (route : Route) : bool :=
  match route with
  | CreateAccessKey _ _ | CreateBucket => true
  | _ => false
  end.

(** What never changes in a credential: its secret and its plan. *)
Definition issuedAs (k : ApiKey) : string * string :=
  (secretAccessKey k, plan k).

(** Every credential of [st] is still there in [st'], with the secret and
    the plan it was issued with. *)
Definition keeps (st st' : State) : Prop :=
  ∀ id k, apiKeys st !! id = Some k →
    ∃ k', apiKeys st' !! id = Some k' ∧ issuedAs k' = issuedAs k.

(** What one request can do to the stores, one change at a time: ensure
    a directory, issue a credential, add a bucket row, charge an upload
    (and store it, if the file system takes it), remove an object and
    release its size.  [P bucketName key] and [D random16] are
    restrictions on the requests that are served. *)
Inductive Step (P : string → string → Prop) (D : list byte → Prop)
    (st : State) : State → Prop :=
  | step_dir q :
      (∀ d, disk st !! q ≠ Some (File d)) →
      Step P D st (mkState (apiKeys st) (buckets st) (<[q := Dir]> (disk st)))
  | step_issue random16 secret plan :
      D random16 →
      apiKeys st !! NodeBuffer.toHex random16 = None →
      Step P D st
        (mkState (<[NodeBuffer.toHex random16 := mkApiKey secret plan 0]> (apiKeys st))
                 (buckets st) (disk st))
  | step_bucket bucketName accessKeyId :
      bucketExists accessKeyId bucketName st = false →
      is_Some (apiKeys st !! accessKeyId) →
      Step P D st
        (mkState (apiKeys st)
                 (buckets st ++ [mkBucket bucketName accessKeyId])%list (disk st))
  | step_put accessKeyId bucketName key data apiKey fs' :
      P bucketName key →
      apiKeys st !! accessKeyId = Some apiKey →
      js_gt (storageUsed apiKey + Z.of_nat (length data))
            (STORAGE_LIMITS (plan apiKey)) = false →
      fs' = disk st
      ∨ fs' = <[objectPath accessKeyId bucketName key := File data]> (disk st) →
      Step P D st
        (mkState (<[accessKeyId := set_storageUsed
                      (storageUsed apiKey + Z.of_nat (length data)) apiKey]>
                    (apiKeys st))
                 (buckets st) fs')
  | step_delete accessKeyId bucketName key data apiKey :
      P bucketName key →
      disk st !! objectPath accessKeyId bucketName key = Some (File data) →
      apiKeys st !! accessKeyId = Some apiKey →
      Step P D st
        (mkState (<[accessKeyId := set_storageUsed
                      (storageUsed apiKey - Z.of_nat (length data)) apiKey]>
                    (apiKeys st))
                 (buckets st)
                 (delete (objectPath accessKeyId bucketName key) (disk st))).

(** The requests that [P] and [D] let through. *)
Definition admissible (P : string → string → Prop) (D : list byte → Prop)
    (route : Route) (req : Request) : Prop :=
  match route with
  | CreateAccessKey random16 _ => D random16
  | PostObject bucketName => ∀ key data, upload req = Some (key, data) → P bucketName key
  | DeleteObject bucketName objectKey => P bucketName objectKey
  | _ => True
  end.

(** The bucket directory is well formed: no row occurs twice, and the
    owner of every row has a credential. *)
Definition directoryOk (st : State) : Prop :=
  NoDup (buckets st)
  ∧ ∀ b, b ∈ buckets st → is_Some (apiKeys st !! owner b).

(** Bytes-used is within the limit of the plan, for every credential
    whose plan has one. *)
Definition withinLimits (st : State) : Prop :=
  ∀ id k limit,
    apiKeys st !! id = Some k → STORAGE_LIMITS (plan k) = Some limit →
    (storageUsed k ≤ limit)%Z.

(** What a node at path [p] adds to the stored bytes of an owner. *)
Definition weight (accessKeyId p : string) (n : node) : Z :=
  match n with
  | File data => if under accessKeyId p then Z.of_nat (length data) else 0
  | Dir => 0
  end.

(** Requests whose bucket names and object keys are each one ordinary
    path segment, and whose random draws are not empty. *)
Definition plainRequest (e : Z * Route * Request) : Prop :=
  admissible (λ bucketName key, NodePath.plain bucketName ∧ NodePath.plain key)
             (λ random16, random16 ≠ []) e.1.2 e.2.

(** The stores account for what is stored: access ids are plain, every
    file lies under the root of a credential, and no credential has more
    bytes stored under its root than its bytes-used says. *)
Definition accounted (st : State) : Prop :=
  (∀ id, is_Some (apiKeys st !! id) → NodePath.plain id)
  ∧ (∀ p data, disk st !! p = Some (File data) →
       ∃ id, is_Some (apiKeys st !! id) ∧ under id p = true)
  ∧ (∀ id k, apiKeys st !! id = Some k →
       (storedBytes id (disk st) ≤ storageUsed k)%Z).

(** The routes that only read: [GET] of an object and of the bucket list. *)
Definition readRoute (route : Route) : bool :=
  match route with
  | GetObject _ _ | ListBuckets => true
  | _ => false
  end.

(** Nothing of owner [id] differs between [st] and [st']: its
    credential, what the disk has at the paths under its root, and the
    bytes stored there. *)
Definition untouched (id : string) (st st' : State) : Prop :=
  apiKeys st' !! id = apiKeys st !! id
  ∧ (∀ p, under id p = true → disk st' !! p = disk st !! p)
  ∧ storedBytes id (disk st') = storedBytes id (disk st).

(** ** More sample inputs *)

Module Cases.

(** A request with no header at all. *)
Definition bare : Request :=
  mkRequest "GET" "/buckets" None None None None None None None None None None.

(** A's request for its bucket list, signed. *)
Definition listing `{Crypto} : Request :=
  Sample.signed Sample.idA Sample.secretA "GET" "/buckets" None None.

(** The same request with a signature made up. *)
Definition forged : Request :=
  mkRequest "GET" "/buckets" (Some Sample.idA) (Some "forged")
    (Some Sample.timestamp) None None None None None None None.

(** One millisecond past the freshness window of [Sample.timestamp]. *)
Definition late : Z := Sample.now + 15 * 60 * 1000 + 1.

(** A's signed upload to its bucket "a", without body and without file. *)
Definition empty `{Crypto} : Request :=
  Sample.signed Sample.idA Sample.secretA "POST" "/buckets/a/objects" None None.

Definition content : list byte := [x01; x02; x03].

(** A's raw upload of [content] to its bucket "a", as "f" and as ".",
    which is the directory of the bucket. *)
Definition toFile `{Crypto} : Request :=
  (Sample.put Sample.idA Sample.secretA "a" "f" content).2.

Definition keyA : ApiKey := mkApiKey Sample.secretA "free" 0.

End Cases.

(** * Properties *)

Example join_plain :
  NodePath.join ["storage"; "ab12"; "photos"; "cat.png"] = "storage/ab12/photos/cat.png".
Proof. reflexivity. Qed.

Example join_in_steps :
  NodePath.join [NodePath.join [NodePath.join ["storage"; "ab12"]; "photos"]; "cat.png"]
  = "storage/ab12/photos/cat.png".
Proof. reflexivity. Qed.

Example join_dotdot :
  NodePath.join ["storage/ab12"; "photos"; "../../cd34/docs/x"] = "storage/cd34/docs/x".
Proof. reflexivity. Qed.

Example join_above :
  NodePath.join ["storage/ab12"; "p"; "../../../../x/"] = "../x/".
Proof. reflexivity. Qed.

Example join_dot : NodePath.join ["storage"; ".."] = ".".
Proof. reflexivity. Qed.

Example parseInt_digits :
  JsNumber.parseInt "1700000000000" = Some 1700000000000%Z
  ∧ JsNumber.parseInt "  -12abc" = Some (-12)%Z
  ∧ JsNumber.parseInt "0x1F" = Some 31%Z
  ∧ JsNumber.parseInt "12.5" = Some 12%Z.
Proof. repeat split. Qed.

Example parseInt_NaN :
  JsNumber.parseInt "yesterday" = None
  ∧ JsNumber.parseInt "-" = None
  ∧ JsNumber.parseInt "0x" = None
  ∧ JsNumber.parseInt ".5" = None.
Proof. repeat split. Qed.

Example toBase64_padding :
  NodeBuffer.toBase64 [x4d; x61; x6e] = "TWFu"
  ∧ NodeBuffer.toBase64 [x4d; x61] = "TWE="
  ∧ NodeBuffer.toBase64 [x4d] = "TQ=="
  ∧ NodeBuffer.toHex [xff; x00; xab] = "ff00ab".
Proof. repeat split. Qed.

Example sendFile_relative :
  Express.sendFile "storage/ab12/photos/cat.png"
  = Throw "path must be absolute or specify root to res.sendFile"
  ∧ Express.sendFile "/srv/storage/ab12/photos/cat.png"
    = Ok (mkResponse 200 (FileStream "/srv/storage/ab12/photos/cat.png")).
Proof. repeat split. Qed.

(** ** Facts about [path.join] *)

Module NodePathFacts.
Import NodePath.

Lemma split_not_nil s : split s ≠ [].
Proof.
  destruct s as [|c s]; cbn; [done|].
  destruct (Ascii.eqb c slash); [done|]. destruct (split s); done.
Qed.

Lemma split_app_slash a b : split (a +:+ "/" +:+ b) = (split a ++ split b)%list.
Proof.
  induction a as [|c a IH]; [reflexivity|].
  change (String c a +:+ "/" +:+ b) with (String c (a +:+ "/" +:+ b)).
  cbn [split]. rewrite IH. destruct (Ascii.eqb c slash); [done|].
  pose proof (split_not_nil a). destruct (split a); done.
Qed.

Lemma split_noSlash s : noSlash s = true → split s = [s].
Proof.
  induction s as [|c s IH]; [done|]. cbn.
  destruct (Ascii.eqb c slash); [done|]. cbn. intros Hs. by rewrite IH.
Qed.

Lemma split_segments s : Forall (λ x, noSlash x = true) (split s).
Proof.
  induction s as [|c s IH]; cbn; [by repeat constructor|].
  destruct (Ascii.eqb c slash) eqn:E; [by constructor|].
  destruct (split s) as [|seg segs].
  - constructor; [cbn; by rewrite E|constructor].
  - inversion IH; subst. constructor; [|done]. cbn. by rewrite E.
Qed.

Lemma split_joinWith segs :
  segs ≠ [] → Forall (λ x, noSlash x = true) segs →
  split (joinWith "/" segs) = segs.
Proof.
  induction segs as [|s [|s2 rest] IH]; [done|..]; intros _ Hf.
  - inversion Hf; subst. by apply split_noSlash.
  - inversion Hf; subst. change (joinWith "/" (s :: s2 :: rest))
      with (s +:+ "/" +:+ joinWith "/" (s2 :: rest)).
    rewrite split_app_slash, IH, split_noSlash; done.
Qed.


Lemma normalizeSegment_nf allow res seg :
  nf allow res → noSlash seg = true →
  nf allow (normalizeSegment allow res seg).
Proof.
  intros Hnf Hs. unfold normalizeSegment.
  case_bool_decide as E1; [done|].
  case_bool_decide as E2.
  - subst seg. destruct res as [|last res'].
    + destruct allow; [|constructor].
      constructor; [constructor|done..|]. intros _. split; [done|by left].
    + case_bool_decide as E3; [|by inversion Hnf].
      destruct allow; [|done].
      constructor; [done..|].
      intros _. split; [done|]. right. exists res'. by subst.
  - constructor; [done..| naive_solver | naive_solver |done].
Qed.

Lemma fold_nf allow segs res :
  nf allow res → Forall (λ x, noSlash x = true) segs →
  nf allow (fold_left (normalizeSegment allow) segs res).
Proof.
  revert res. induction segs as [|seg segs IH]; intros res Hnf Hf; [done|].
  inversion Hf; subst. cbn. apply IH; [|done]. by apply normalizeSegment_nf.
Qed.

Lemma normalizeSegment_keep allow res seg :
  nf allow (seg :: res) → normalizeSegment allow res seg = seg :: res.
Proof.
  intros Hnf. inversion Hnf as [|seg' res'' Hres Hs Hne Hdot Hdd].
  unfold normalizeSegment.
  rewrite bool_decide_eq_false_2 by (intros [?|?]; done).
  case_bool_decide as E2; [|done].
  destruct (Hdd E2) as [Ha [Hr|[res' Hr]]]; subst; [done|].
  by rewrite bool_decide_eq_true_2.
Qed.

Lemma fold_keep allow segs :
  nf allow (rev segs) → fold_left (normalizeSegment allow) segs [] = rev segs.
Proof.
  induction segs as [|seg segs IH] using rev_ind; [done|].
  rewrite rev_unit, fold_left_app. cbn. intros Hnf.
  rewrite IH by (by inversion Hnf). by apply normalizeSegment_keep.
Qed.


Lemma normalize_render p :
  p ≠ "" →
  normalize p = render (startsWithSlash p) (endsWithSlash p)
                  (normalizeString (negb (startsWithSlash p)) (split p)).
Proof. intros Hp. unfold normalize. by rewrite bool_decide_eq_false_2. Qed.

Lemma app_String c (a b : string) : String c a +:+ b = String c (a +:+ b).
Proof. reflexivity. Qed.

Lemma app_empty_l (b : string) : "" +:+ b = b.
Proof. reflexivity. Qed.

Lemma app_empty_r (s : string) : s +:+ "" = s.
Proof. induction s as [|c s IH]; [done|]. by rewrite app_String, IH. Qed.

Lemma startsWithSlash_app a b :
  a ≠ "" → startsWithSlash (a +:+ b) = startsWithSlash a.
Proof. by destruct a. Qed.

Lemma endsWithSlash_app a b :
  b ≠ "" → endsWithSlash (a +:+ b) = endsWithSlash b.
Proof.
  intros Hb. induction a as [|c a IH]; [done|].
  rewrite app_String. cbn [endsWithSlash]. rewrite IH.
  destruct (a +:+ b) eqn:E; [|done]. destruct a, b; done.
Qed.

Lemma endsWithSlash_noSlash s : noSlash s = true → endsWithSlash s = false.
Proof.
  induction s as [|c s IH]; [done|]. cbn.
  destruct (Ascii.eqb c slash); [done|]. cbn. intros Hs.
  destruct s; [done|]. auto.
Qed.

Lemma startsWithSlash_noSlash s : noSlash s = true → startsWithSlash s = false.
Proof. destruct s as [|c s]; [done|]. cbn. by destruct (Ascii.eqb c slash). Qed.

Lemma joinWith_cons s rest :
  rest ≠ [] → joinWith "/" (s :: rest) = s +:+ "/" +:+ joinWith "/" rest.
Proof. by destruct rest. Qed.

Lemma joinWith_empty segs :
  Forall (λ x, x ≠ "") segs → joinWith "/" segs = "" → segs = [].
Proof.
  destruct segs as [|s [|s2 rest]]; [done|..]; inversion 1; subst; [done|].
  rewrite joinWith_cons by done. by destruct s.
Qed.

Lemma startsWithSlash_joinWith segs :
  Forall (λ x, noSlash x = true ∧ x ≠ "") segs →
  startsWithSlash (joinWith "/" segs) = false.
Proof.
  destruct segs as [|s [|s2 rest]]; [done|..]; inversion 1 as [|? ? [Hs Hne]]; subst.
  - by apply startsWithSlash_noSlash.
  - rewrite joinWith_cons, startsWithSlash_app by done.
    by apply startsWithSlash_noSlash.
Qed.

Lemma endsWithSlash_joinWith segs :
  Forall (λ x, noSlash x = true ∧ x ≠ "") segs →
  endsWithSlash (joinWith "/" segs) = false.
Proof.
  induction segs as [|s [|s2 rest] IH]; [done|..]; inversion 1 as [|? ? [Hs Hne] Hf]; subst.
  - by apply endsWithSlash_noSlash.
  - rewrite joinWith_cons by done.
    rewrite endsWithSlash_app.
    + change ("/" +:+ joinWith "/" (s2 :: rest))
        with (String "/"%char (joinWith "/" (s2 :: rest))).
      cbn [endsWithSlash]. specialize (IH Hf).
      destruct (joinWith "/" (s2 :: rest)) eqn:E; [|done].
      apply joinWith_empty in E; [done|].
      eapply Forall_impl; [exact Hf|]. by intros ? [_ ?].
    + done.
Qed.


Lemma nf_Forall allow res :
  nf allow res → Forall (λ x, noSlash x = true ∧ x ≠ "") res.
Proof. induction 1; constructor; auto. Qed.

Lemma normalizeSegment_empty allow res : normalizeSegment allow res "" = res.
Proof. reflexivity. Qed.

(** Normalising what [normalize] returned keeps the same segments. *)
Lemma fold_split_render isAbsolute trailingSeparator segs :
  nf (negb isAbsolute) (rev segs) →
  fold_left (normalizeSegment (negb isAbsolute))
    (split (render isAbsolute trailingSeparator segs)) []
  = rev segs.
Proof.
  intros Hnf. pose proof (nf_Forall _ _ Hnf) as Hf.
  apply Forall_rev in Hf. rewrite rev_involutive in Hf.
  unfold render. case_bool_decide as E.
  - apply joinWith_empty in E as ->;
      [|eapply Forall_impl; [exact Hf|]; by intros ? [_ ?]].
    by destruct isAbsolute, trailingSeparator.
  - assert (segs ≠ []) as Hne by (by intros ->).
    assert (split (joinWith "/" segs) = segs) as Hsplit.
    { apply split_joinWith; [done|].
      eapply Forall_impl; [exact Hf|]. by intros ? [? _]. }
    assert (∀ post : bool,
      fold_left (normalizeSegment (negb isAbsolute))
        (split (joinWith "/" segs +:+ (if post then "/" else ""))) []
      = rev segs) as Hpost.
    { intros [|].
      - change (joinWith "/" segs +:+ "/") with (joinWith "/" segs +:+ "/" +:+ "").
        rewrite split_app_slash, Hsplit, fold_left_app. cbn.
        rewrite normalizeSegment_empty. by apply fold_keep.
      - rewrite app_empty_r, Hsplit. by apply fold_keep. }
    destruct isAbsolute.
    + rewrite app_String, app_empty_l. cbn [split]. cbn [Ascii.eqb Bool.eqb slash].
      cbn [fold_left]. rewrite normalizeSegment_empty. apply Hpost.
    + rewrite app_empty_l. apply Hpost.
Qed.

Lemma render_not_empty isAbsolute trailingSeparator segs :
  render isAbsolute trailingSeparator segs ≠ "".
Proof.
  unfold render. case_bool_decide as E.
  - by destruct isAbsolute, trailingSeparator.
  - destruct isAbsolute; [done|]. rewrite app_empty_l.
    destruct (joinWith "/" segs); done.
Qed.

Lemma startsWithSlash_render isAbsolute trailingSeparator segs :
  Forall (λ x, noSlash x = true ∧ x ≠ "") segs →
  startsWithSlash (render isAbsolute trailingSeparator segs) = isAbsolute.
Proof.
  intros Hf. unfold render. case_bool_decide as E.
  - by destruct isAbsolute, trailingSeparator.
  - destruct isAbsolute; [done|]. rewrite app_empty_l.
    rewrite startsWithSlash_app by done. by apply startsWithSlash_joinWith.
Qed.

Lemma render_endsWithSlash isAbsolute trailingSeparator segs :
  Forall (λ x, noSlash x = true ∧ x ≠ "") segs →
  render isAbsolute
    (endsWithSlash (render isAbsolute trailingSeparator segs)) segs
  = render isAbsolute trailingSeparator segs.
Proof.
  intros Hf. unfold render at 2 3. case_bool_decide as E.
  - unfold render. rewrite bool_decide_eq_true_2 by done.
    by destruct isAbsolute, trailingSeparator.
  - assert (endsWithSlash
              ((if isAbsolute then "/" else "") +:+ joinWith "/" segs +:+
               (if trailingSeparator then "/" else "")) = trailingSeparator) as ->.
    { destruct trailingSeparator.
      - rewrite endsWithSlash_app;
          [by rewrite endsWithSlash_app|by destruct (joinWith "/" segs)].
      - rewrite app_empty_r, endsWithSlash_app by done.
        by apply endsWithSlash_joinWith. }
    unfold render. by rewrite bool_decide_eq_false_2.
Qed.

Lemma normalizeString_nf allow segs :
  Forall (λ x, noSlash x = true) segs →
  nf allow (rev (normalizeString allow segs)).
Proof.
  intros Hf. unfold normalizeString. rewrite rev_involutive.
  apply fold_nf; [constructor|done].
Qed.

(** [normalize] is idempotent. *)
Lemma normalize_normalize p : normalize (normalize p) = normalize p.
Proof.
  destruct (decide (p = "")) as [->|Hp]; [done|].
  rewrite (normalize_render p Hp).
  set (isAbsolute := startsWithSlash p). set (tr := endsWithSlash p).
  set (segs := normalizeString (negb isAbsolute) (split p)).
  assert (nf (negb isAbsolute) (rev segs)) as Hnf
    by apply normalizeString_nf, split_segments.
  pose proof (nf_Forall _ _ Hnf) as Hf.
  apply Forall_rev in Hf. rewrite rev_involutive in Hf.
  rewrite normalize_render by apply render_not_empty.
  rewrite startsWithSlash_render by done.
  unfold normalizeString at 1. rewrite fold_split_render by done.
  rewrite rev_involutive. by apply render_endsWithSlash.
Qed.

(** Joining onto a normalised path is joining onto the path. *)
Lemma normalize_app_normalize p k :
  p ≠ "" → k ≠ "" →
  normalize (normalize p +:+ "/" +:+ k) = normalize (p +:+ "/" +:+ k).
Proof.
  intros Hp Hk. rewrite (normalize_render p Hp).
  set (isAbsolute := startsWithSlash p).
  set (segs := normalizeString (negb isAbsolute) (split p)).
  assert (nf (negb isAbsolute) (rev segs)) as Hnf
    by apply normalizeString_nf, split_segments.
  pose proof (nf_Forall _ _ Hnf) as Hf.
  apply Forall_rev in Hf. rewrite rev_involutive in Hf.
  set (n := render isAbsolute (endsWithSlash p) segs).
  assert (n ≠ "") as Hn by apply render_not_empty.
  rewrite !normalize_render by (by destruct n, p).
  rewrite !startsWithSlash_app by done.
  rewrite !endsWithSlash_app by done.
  unfold n at 1 2. rewrite startsWithSlash_render by done.
  fold isAbsolute. f_equal.
  unfold normalizeString. rewrite !split_app_slash, !fold_left_app.
  unfold n. rewrite fold_split_render by done. unfold segs, normalizeString.
  by rewrite rev_involutive.
Qed.

Lemma join_not_empty args : join args ≠ "".
Proof.
  unfold join. case_bool_decide; [done|].
  rewrite normalize_render by done. apply render_not_empty.
Qed.

Lemma join_cons_empty args : join ("" :: args) = join args.
Proof. unfold join. by rewrite filter_cons_False by naive_solver. Qed.

Lemma join_1 a : a ≠ "" → join [a] = normalize a.
Proof.
  intros Ha. unfold join. rewrite filter_cons_True by done.
  rewrite filter_nil. cbn. by rewrite bool_decide_eq_false_2.
Qed.

Lemma join_2 a b :
  a ≠ "" → b ≠ "" → join [a; b] = normalize (a +:+ "/" +:+ b).
Proof.
  intros Ha Hb. unfold join. rewrite !filter_cons_True by done.
  rewrite filter_nil. cbn. rewrite bool_decide_eq_false_2; [done|].
  by destruct a.
Qed.

Lemma join_3 a b c :
  a ≠ "" → b ≠ "" → c ≠ "" →
  join [a; b; c] = normalize ((a +:+ "/" +:+ b) +:+ "/" +:+ c).
Proof.
  intros Ha Hb Hc. unfold join. rewrite !filter_cons_True by done.
  rewrite filter_nil. cbn. rewrite bool_decide_eq_false_2 by (by destruct a).
  f_equal. induction a as [|x a IH]; [done|]. rewrite !app_String.
  f_equal. destruct a; [done|]. by apply IH.
Qed.

Lemma join_drop_empty l1 l2 : join (l1 ++ "" :: l2)%list = join (l1 ++ l2)%list.
Proof.
  unfold join. rewrite !filter_app.
  by rewrite filter_cons_False by (intros Hne; by apply Hne).
Qed.

(** Joining in two steps, as the upload handler does, gives the path the
    read and delete handlers compute in one. *)
Lemma join_nested r b k :
  r ≠ "" → join [join [r; b]; k] = join [r; b; k].
Proof.
  intros Hr.
  assert (∀ a, join [a; ""] = join [a]) as drop2
    by (intros a; apply (join_drop_empty [a] [])).
  assert (∀ a c, join [a; ""; c] = join [a; c]) as drop2of3
    by (intros a c; apply (join_drop_empty [a] [c])).
  assert (∀ a c, join [a; c; ""] = join [a; c]) as drop3
    by (intros a c; apply (join_drop_empty [a; c] [])).
  pose proof (join_not_empty [r; b]) as Hn.
  destruct (decide (b = "")) as [->|Hb], (decide (k = "")) as [->|Hk];
    rewrite ?drop2 in Hn;
    repeat (rewrite drop2 || rewrite drop2of3 || rewrite drop3).
  - rewrite (join_1 _ Hn), (join_1 r Hr). apply normalize_normalize.
  - rewrite (join_2 _ _ Hn Hk), (join_1 r Hr), (join_2 r k Hr Hk).
    by apply normalize_app_normalize.
  - rewrite (join_1 _ Hn), (join_2 r b Hr Hb). apply normalize_normalize.
  - rewrite (join_2 _ _ Hn Hk), (join_2 r b Hr Hb), (join_3 r b k Hr Hb Hk).
    apply normalize_app_normalize; [by destruct r|done].
Qed.

Lemma append_assoc (a b c : string) : (a +:+ b) +:+ c = a +:+ b +:+ c.
Proof. induction a as [|x a IH]; [done|]. by rewrite !app_String, IH. Qed.

Lemma joinWith_snoc segs f :
  segs ≠ [] → joinWith "/" (segs ++ [f]) = joinWith "/" segs +:+ "/" +:+ f.
Proof.
  induction segs as [|s [|s2 rest] IH]; [done|reflexivity|]. intros _.
  change ((s :: s2 :: rest) ++ [f])%list with (s :: ((s2 :: rest) ++ [f]))%list.
  rewrite joinWith_cons by done. rewrite IH by done.
  rewrite (joinWith_cons s (s2 :: rest)) by done. by rewrite !append_assoc.
Qed.

(** Joining a plain name onto a relative path appends it to what the path
    normalises to. *)
Lemma normalize_onto p f segs :
  p ≠ "" → startsWithSlash p = false →
  normalizeString true (split p) = segs → segs ≠ [] →
  plain f →
  normalize (p +:+ "/" +:+ f) = joinWith "/" segs +:+ "/" +:+ f.
Proof.
  intros Hp Hrel Hsegs Hne (Hf & Hf0 & Hf1 & Hf2).
  rewrite normalize_render by (by destruct p).
  rewrite startsWithSlash_app, Hrel by done.
  rewrite endsWithSlash_app by done.
  assert (endsWithSlash ("/" +:+ f) = false) as ->.
  { rewrite <- (endsWithSlash_noSlash f Hf). by destruct f. }
  cbn [negb].
  unfold normalizeString in *. rewrite split_app_slash, fold_left_app.
  rewrite (split_noSlash f Hf). cbn [fold_left].
  unfold normalizeSegment at 1.
  rewrite bool_decide_eq_false_2 by (intros [?|?]; done).
  rewrite bool_decide_eq_false_2 by done.
  cbn [rev]. rewrite Hsegs. unfold render.
  rewrite joinWith_snoc by done.
  rewrite bool_decide_eq_false_2 by (by destruct (joinWith "/" segs)).
  by rewrite app_empty_l, app_empty_r.
Qed.

End NodePathFacts.

Section Properties.

Context `{Crypto}.

(** *** The upload handler, step by step *)

Lemma postObject_upload accessKeyId root bucketName req st key data :
  bucketExists accessKeyId bucketName st = true →
  upload req = Some (key, data) →
  postObject accessKeyId root bucketName req st
  = respondSaved (saveObject accessKeyId (uploadPath root bucketName key)
                              (Z.of_nat (length data)) data) st.
Proof.
  intros Hb Hu. unfold postObject, upload, uploadPath in *.
  rewrite Hb. cbn [negb].
  destruct (file req) as [f|].
  - injection Hu as <- <-. reflexivity.
  - destruct (body req) as [d|]; [|discriminate].
    destruct (xFileName req) as [fileName|]; [|discriminate].
    destruct (js_truthy (Some fileName)); [|discriminate].
    injection Hu as <- <-. reflexivity.
Qed.

Lemma checkStorageLimit_rejects accessKeyId apiKey limit fileSize st :
  apiKeys st !! accessKeyId = Some apiKey →
  STORAGE_LIMITS (plan apiKey) = Some limit →
  (limit < storageUsed apiKey + fileSize)%Z →
  checkStorageLimit accessKeyId fileSize st = (Throw "Storage limit exceeded", st).
Proof.
  intros Hk Hl Hlt. unfold checkStorageLimit. rewrite Hk, Hl. simpl.
  rewrite bool_decide_eq_true_2 by done. reflexivity.
Qed.

Lemma checkStorageLimit_accepts accessKeyId apiKey fileSize st :
  apiKeys st !! accessKeyId = Some apiKey →
  js_gt (storageUsed apiKey + fileSize) (STORAGE_LIMITS (plan apiKey)) = false →
  checkStorageLimit accessKeyId fileSize st
  = (Ok (), set_apiKeys (insert accessKeyId
                           (set_storageUsed (storageUsed apiKey + fileSize) apiKey)) st).
Proof.
  intros Hk Hgt. unfold checkStorageLimit, updateApiKey. rewrite Hk, Hgt.
  reflexivity.
Qed.

(** C2. A write whose size would take bytes-used over the limit of the
    owner's plan is answered [StorageLimitExceeded], and the metadata
    store and the backing store are left exactly as they were. *)
Theorem quota_rejection_writes_nothing
    accessKeyId root bucketName req st key data apiKey limit :
  bucketExists accessKeyId bucketName st = true →
  upload req = Some (key, data) →
  apiKeys st !! accessKeyId = Some apiKey →
  STORAGE_LIMITS (plan apiKey) = Some limit →
  (limit < storageUsed apiKey + Z.of_nat (length data))%Z →
  postObject accessKeyId root bucketName req st = (StorageLimitExceeded, st).
Proof.
  intros Hb Hu Hk Hl Hlt.
  rewrite (postObject_upload _ _ _ _ _ _ _ Hb Hu).
  unfold respondSaved, saveObject, async_bind.
  rewrite (checkStorageLimit_rejects _ _ _ _ _ Hk Hl Hlt).
  reflexivity.
Qed.

(** *** The file system calls *)

Lemma writeFile_inv p data fs fs' :
  NodeFs.writeFile p data fs = Ok fs' →
  NodePath.endsWithSlash p = false ∧ fs !! p ≠ Some Dir
  ∧ fs' = <[p := File data]> fs.
Proof.
  unfold NodeFs.writeFile. destruct (NodePath.endsWithSlash p); [discriminate|].
  destruct (fs !! p) as [[d|]|] eqn:E; try discriminate;
    intros [= <-]; repeat split; congruence.
Qed.

Lemma readFile_written p data fs fs' :
  NodeFs.writeFile p data fs = Ok fs' → NodeFs.readFile p fs' = Ok data.
Proof.
  intros (Hs & _ & ->)%writeFile_inv. unfold NodeFs.readFile, NodeFs.resolve.
  rewrite Hs, lookup_insert_eq. reflexivity.
Qed.

(** The upload handler when the quota check passes and the file system
    takes the write. *)
Lemma saveObject_ok accessKeyId apiKey filePath data fs' st :
  apiKeys st !! accessKeyId = Some apiKey →
  js_gt (storageUsed apiKey + Z.of_nat (length data))
        (STORAGE_LIMITS (plan apiKey)) = false →
  NodeFs.writeFile filePath data (disk st) = Ok fs' →
  saveObject accessKeyId filePath (Z.of_nat (length data)) data st
  = (Ok (md5_hex data),
     mkState (<[accessKeyId := set_storageUsed
                  (storageUsed apiKey + Z.of_nat (length data)) apiKey]> (apiKeys st))
             (buckets st) fs').
Proof.
  intros Hk Hgt Hw. unfold saveObject, async_bind.
  rewrite (checkStorageLimit_accepts _ _ _ _ Hk Hgt).
  unfold on_disk, from_disk, set_apiKeys, set_disk. cbn [disk apiKeys buckets].
  rewrite Hw. cbn [disk]. rewrite (readFile_written _ _ _ _ Hw). reflexivity.
Qed.

(** C7. Deleting a key under which no object is stored, in a bucket
    that exists, is answered [ObjectNotFound]; the bytes-used counter and
    the backing store are left as they were. *)
Theorem delete_absent_object accessKeyId bucketName objectKey st :
  bucketExists accessKeyId bucketName st = true →
  stored (objectPath accessKeyId bucketName objectKey) st = None →
  deleteObject accessKeyId (userRoot accessKeyId) bucketName objectKey st
  = (ObjectNotFound, st).
Proof.
  intros Hb Hs. unfold deleteObject, objectPath, userRoot, stored in *.
  rewrite Hb. cbn [negb].
  set (filePath := NodePath.join _) in *.
  unfold async_bind, from_disk, on_disk, NodeFs.stat_size, NodeFs.unlink,
    NodeFs.resolve in *.
  destruct (NodePath.endsWithSlash filePath).
  - destruct (disk st !! NodeFs.dropTrailingSlash filePath) as [[d|]|];
      reflexivity.
  - destruct (disk st !! filePath) as [[d|]|]; [discriminate|reflexivity..].
Qed.

(** C8. When the bucket directory has no row for (owner, name), the
    write, the read and the delete are each answered [BucketNotFound]
    and leave both stores as they were. *)
Theorem missing_bucket_touches_nothing
    accessKeyId userStorageRoot bucketName objectKey req st :
  bucketExists accessKeyId bucketName st = false →
  postObject accessKeyId userStorageRoot bucketName req st = (BucketNotFound, st)
  ∧ getObject accessKeyId userStorageRoot bucketName objectKey st = (BucketNotFound, st)
  ∧ deleteObject accessKeyId userStorageRoot bucketName objectKey st = (BucketNotFound, st).
Proof.
  intros Hb. unfold postObject, getObject, deleteObject. rewrite Hb.
  repeat split.
Qed.

(** The authenticator on a request that passes its four checks. *)
Lemma authenticateRequest_passes now req st accessId signature timestamp apiKey :
  xAccessID req = Some accessId → accessId ≠ "" →
  xSignature req = Some signature → signature ≠ "" →
  xTimestamp req = Some timestamp → timestamp ≠ "" →
  apiKeys st !! accessId = Some apiKey →
  JsNumber.lt (JsNumber.parseInt timestamp) (now - 15 * 60 * 1000) = false →
  signature = hmac_sha256_hex (secretAccessKey apiKey)
                (method req +:+ originalUrl req +:+ timestamp) →
  authenticateRequest now req st
  = match NodeFs.mkdir (userRoot accessId) (disk st) with
    | Ok fs' => Next (userRoot accessId) (set_disk (λ _, fs') st)
    | Throw e => Rejection e st
    end.
Proof.
  intros Ha Ha' Hs Hs' Ht Ht' Hk Hfresh Hsig.
  unfold authenticateRequest. rewrite Ha, Hs, Ht, Hk, Hfresh.
  destruct accessId; [done|]. destruct signature; [done|].
  destruct timestamp as [|c t]; [done|]. cbn [js_truthy negb orb].
  rewrite bool_decide_eq_false_2; [reflexivity|].
  intros Hne. apply Hne. symmetry. exact Hsig.
Qed.

(** *** The authenticator *)

Lemma stored_mkdir p q fs' st :
  NodeFs.mkdir q (disk st) = Ok fs' →
  stored p (set_disk (λ _, fs') st) = stored p st.
Proof.
  unfold NodeFs.mkdir, stored, NodeFs.resolve, set_disk. cbn [disk].
  set (q' := NodeFs.dropTrailingSlash q).
  destruct (disk st !! q') as [[d|]|] eqn:E; [discriminate|..]; intros [= <-].
  - rewrite insert_id by done. reflexivity.
  - destruct (NodePath.endsWithSlash p).
    + destruct (decide (q' = NodeFs.dropTrailingSlash p)) as [<-|Hne].
      * rewrite lookup_insert_eq, E. reflexivity.
      * rewrite lookup_insert_ne by done. reflexivity.
    + destruct (decide (q' = p)) as [<-|Hne].
      * rewrite lookup_insert_eq, E. reflexivity.
      * rewrite lookup_insert_ne by done. reflexivity.
Qed.

(** C4, as the code has it.  Authentication never changes the metadata
    store and never creates, changes or removes a file.  A request that
    is answered 401 leaves the backing store untouched; a request that
    is passed on has had the directory of its owner's storage root
    ensured, and that is the only change. *)
Theorem authentication_only_ensures_root now req st :
  let st' := stateAfter (authenticateRequest now req st) st in
  apiKeys st' = apiKeys st
  ∧ buckets st' = buckets st
  ∧ (∀ p, stored p st' = stored p st)
  ∧ match authenticateRequest now req st with
    | Next userStorageRoot _ =>
        disk st' = <[NodeFs.dropTrailingSlash userStorageRoot := Dir]> (disk st)
    | _ => st' = st
    end.
Proof.
  unfold authenticateRequest.
  destruct (negb (js_truthy (xAccessID req)) || negb (js_truthy (xSignature req))
            || negb (js_truthy (xTimestamp req))); [by repeat split|].
  destruct (xAccessID req) as [accessId|]; [|by repeat split].
  destruct (xSignature req) as [signature|]; [|by repeat split].
  destruct (xTimestamp req) as [timestamp|]; [|by repeat split].
  destruct (apiKeys st !! accessId) as [apiKey|]; [|by repeat split].
  destruct (JsNumber.lt _ _); [by repeat split|].
  destruct (bool_decide _); [by repeat split|].
  destruct (NodeFs.mkdir _ (disk st)) as [fs'|e] eqn:E; [|by repeat split].
  cbn [stateAfter]. repeat split.
  - intros p. by apply stored_mkdir with (q := NodePath.join [STORAGE_ROOT; accessId]).
  - cbn [set_disk disk]. unfold NodeFs.mkdir in E.
    destruct (disk st !! _) as [[d|]|]; congruence.
Qed.

(** *** The delete handler *)

Lemma stored_inv p st data :
  stored p st = Some data →
  NodePath.endsWithSlash p = false ∧ disk st !! p = Some (File data).
Proof.
  unfold stored, NodeFs.resolve. destruct (NodePath.endsWithSlash p).
  - destruct (disk st !! _) as [[d|]|]; discriminate.
  - destruct (disk st !! p) as [[d|]|]; [|discriminate..].
    intros [= ->]. done.
Qed.


(** *** Writing, then reading *)

(** The upload handler writes where the read and delete handlers look. *)
Lemma uploadPath_objectPath accessKeyId bucketName key :
  uploadPath (userRoot accessKeyId) bucketName key
  = objectPath accessKeyId bucketName key.
Proof. apply NodePathFacts.join_nested, NodePathFacts.join_not_empty. Qed.

Lemma saveObject_inv accessKeyId filePath fileSize data st etag st' :
  saveObject accessKeyId filePath fileSize data st = (Ok etag, st') →
  ∃ apiKey fs',
    apiKeys st !! accessKeyId = Some apiKey
    ∧ js_gt (storageUsed apiKey + fileSize) (STORAGE_LIMITS (plan apiKey)) = false
    ∧ NodeFs.writeFile filePath data (disk st) = Ok fs'
    ∧ etag = md5_hex data
    ∧ st' = mkState (<[accessKeyId := set_storageUsed
                         (storageUsed apiKey + fileSize) apiKey]> (apiKeys st))
                    (buckets st) fs'.
Proof.
  unfold saveObject, async_bind, checkStorageLimit, updateApiKey.
  destruct (apiKeys st !! accessKeyId) as [apiKey|] eqn:Hk; [|discriminate].
  destruct (js_gt _ _) eqn:Hgt; [discriminate|].
  unfold on_disk, from_disk, set_apiKeys, set_disk, async_ret.
  cbn [disk apiKeys buckets].
  destruct (NodeFs.writeFile filePath data (disk st)) as [fs'|e] eqn:Hw;
    [|discriminate].
  cbn [disk]. rewrite (readFile_written _ _ _ _ Hw). intros [= <- <-].
  by exists apiKey, fs'.
Qed.

Lemma postObject_created accessKeyId root bucketName req st key data etag st' :
  upload req = Some (key, data) →
  postObject accessKeyId root bucketName req st
  = (mkResponse 201 (JsonETag etag), st') →
  bucketExists accessKeyId bucketName st = true
  ∧ saveObject accessKeyId (uploadPath root bucketName key)
      (Z.of_nat (length data)) data st = (Ok etag, st').
Proof.
  intros Hu Hp.
  destruct (bucketExists accessKeyId bucketName st) eqn:Hb.
  - split; [done|]. rewrite (postObject_upload _ _ _ _ _ _ _ Hb Hu) in Hp.
    unfold respondSaved in Hp. destruct (saveObject _ _ _ _ st) as [[e|m] st1].
    + by injection Hp as <- <-.
    + by case_bool_decide.
  - unfold postObject in Hp. by rewrite Hb in Hp.
Qed.

Lemma stored_written p data fs fs' ks bs :
  NodeFs.writeFile p data fs = Ok fs' →
  stored p (mkState ks bs fs') = Some data.
Proof.
  intros (Hs & _ & ->)%writeFile_inv. unfold stored, NodeFs.resolve.
  cbn [disk]. by rewrite Hs, lookup_insert_eq.
Qed.

Lemma under_storage_not_absolute p :
  String.prefix (STORAGE_ROOT +:+ "/") p = true →
  p ≠ "" ∧ Express.isAbsolute p = false.
Proof.
  change (STORAGE_ROOT +:+ "/") with "storage/". intros Hp.
  destruct p as [|c0 p]; [done|]. cbn [String.prefix] in Hp.
  destruct (ascii_dec "s" c0) as [<-|]; [|done].
  destruct p as [|c1 p]; [done|]. cbn [String.prefix] in Hp.
  destruct (ascii_dec "t" c1) as [<-|]; [|done].
  split; [done|]. by destruct p.
Qed.

(** The read handler on a path that [res.sendFile] refuses. *)
Lemma getObject_relative accessKeyId root bucketName objectKey st :
  bucketExists accessKeyId bucketName st = true →
  Express.isAbsolute (NodePath.join [root; bucketName; objectKey]) = false →
  getObject accessKeyId root bucketName objectKey st = (ObjectNotFound, st).
Proof.
  intros Hb Hrel. unfold getObject, async_bind, from_disk, Express.sendFile.
  rewrite Hb, Hrel. cbn [negb].
  destruct (NodeFs.access _ _); [|done]. by case_bool_decide.
Qed.

(** C6, where the code departs from it.  A write that is answered 201
    has stored the content under the object's path and has returned the
    digest of that content; the read of the same object that follows is
    nevertheless answered [ObjectNotFound], because the path handed to
    [res.sendFile] is relative. *)
Theorem written_object_is_not_served
    accessKeyId bucketName key req data etag st st' :
  upload req = Some (key, data) →
  postObject accessKeyId (userRoot accessKeyId) bucketName req st
  = (mkResponse 201 (JsonETag etag), st') →
  String.prefix (STORAGE_ROOT +:+ "/") (objectPath accessKeyId bucketName key) = true →
  etag = md5_hex data
  ∧ stored (objectPath accessKeyId bucketName key) st' = Some data
  ∧ getObject accessKeyId (userRoot accessKeyId) bucketName key st'
    = (ObjectNotFound, st').
Proof.
  intros Hu Hp Hpre.
  destruct (postObject_created _ _ _ _ _ _ _ _ _ Hu Hp) as [Hb Hsave].
  rewrite uploadPath_objectPath in Hsave.
  destruct (saveObject_inv _ _ _ _ _ _ _ Hsave)
    as (apiKey & fs' & Hk & Hgt & Hw & -> & ->).
  split; [done|]. split; [by eapply stored_written|].
  apply getObject_relative; [done|].
  by apply under_storage_not_absolute in Hpre as [_ ?].
Qed.

(** C1, where the code departs from it.  After two writes to the same
    object, each answered 201, the second content is what is stored, and
    bytes-used has grown by the sizes of both contents: the size of the
    content that was replaced is not released. *)
Theorem overwrite_is_charged_twice
    accessKeyId bucketName key req1 req2 C1 C2 etag1 etag2 st st1 st2 apiKey :
  apiKeys st !! accessKeyId = Some apiKey →
  upload req1 = Some (key, C1) →
  upload req2 = Some (key, C2) →
  postObject accessKeyId (userRoot accessKeyId) bucketName req1 st
  = (mkResponse 201 (JsonETag etag1), st1) →
  postObject accessKeyId (userRoot accessKeyId) bucketName req2 st1
  = (mkResponse 201 (JsonETag etag2), st2) →
  stored (objectPath accessKeyId bucketName key) st2 = Some C2
  ∧ etag2 = md5_hex C2
  ∧ bytesUsed accessKeyId st2
    = Some (storageUsed apiKey + Z.of_nat (length C1) + Z.of_nat (length C2))%Z.
Proof.
  intros Hk Hu1 Hu2 Hp1 Hp2.
  destruct (postObject_created _ _ _ _ _ _ _ _ _ Hu1 Hp1) as [_ Hs1].
  destruct (postObject_created _ _ _ _ _ _ _ _ _ Hu2 Hp2) as [_ Hs2].
  rewrite uploadPath_objectPath in Hs1, Hs2.
  destruct (saveObject_inv _ _ _ _ _ _ _ Hs1)
    as (k1 & fs1 & Hk1 & _ & _ & _ & ->).
  destruct (saveObject_inv _ _ _ _ _ _ _ Hs2)
    as (k2 & fs2 & Hk2 & _ & Hw2 & -> & ->).
  rewrite Hk in Hk1. injection Hk1 as <-.
  cbn [apiKeys] in Hk2. rewrite lookup_insert_eq in Hk2. injection Hk2 as <-.
  split; [by eapply stored_written|]. split; [done|].
  unfold bytesUsed. cbn [apiKeys]. by rewrite lookup_insert_eq.
Qed.

(** *** Stored bytes *)

Lemma storedBytes_insert_file accessKeyId p data (fs : gmap string node) :
  fs !! p = None →
  storedBytes accessKeyId (<[p := File data]> fs)
  = (storedBytes accessKeyId fs
     + if under accessKeyId p then Z.of_nat (length data) else 0)%Z.
Proof.
  intros Hp. unfold storedBytes. rewrite map_fold_insert_L; [|intros|done].
  - destruct (under accessKeyId p); lia.
  - repeat case_match; lia.
Qed.

Lemma storedBytes_insert_dir accessKeyId p (fs : gmap string node) :
  (∀ data, fs !! p ≠ Some (File data)) →
  storedBytes accessKeyId (<[p := Dir]> fs) = storedBytes accessKeyId fs.
Proof.
  intros Hp. destruct (fs !! p) as [[data|]|] eqn:E.
  - by destruct (Hp data).
  - by rewrite insert_id.
  - unfold storedBytes. rewrite map_fold_insert_L; [done|intros|done].
    repeat case_match; lia.
Qed.

End Properties.

(** ** The handlers on the sample inputs *)

Example sample_credentials :
  NodeBuffer.toHex Sample.randomA16 = Sample.idA
  ∧ NodeBuffer.toBase64 Sample.randomA32 = Sample.secretA
  ∧ NodeBuffer.toHex Sample.randomB16 = Sample.idB
  ∧ NodeBuffer.toBase64 Sample.randomB32 = Sample.secretB.
Proof. repeat split. Qed.

(** C4, as worded, fails: the first authenticated request of a freshly
    issued credential creates the directory of its storage root. *)
Lemma authentication_creates_the_root : ¬ authentication_mutates_nothing.
Proof.
  intros Hclaim.
  pose proof (Hclaim Sample.crypto Sample.now
                (Sample.signed (H := Sample.crypto) Sample.idA Sample.secretA
                   "GET" "/buckets" None None)
                (Sample.issued (H := Sample.crypto))) as E.
  apply (f_equal (λ st, disk st !! userRoot Sample.idA)) in E.
  vm_compute in E. discriminate E.
Qed.


Lemma quota_rejection_writes_nothing_witness :
  postObject (H := Sample.crypto) Sample.idB (userRoot Sample.idB) "b"
    (Sample.put (H := Sample.crypto) Sample.idB Sample.secretB "b" "f" [x2a]).2
    Sample.atLimit
  = (StorageLimitExceeded, Sample.atLimit).
Proof.
  apply (quota_rejection_writes_nothing (H := Sample.crypto)) with
    (key := "f") (data := [x2a])
    (apiKey := mkApiKey Sample.secretB "free" (1024 * 1024 * 1024))
    (limit := (1024 * 1024 * 1024)%Z);
    vm_compute; reflexivity.
Defined.

Lemma delete_absent_object_witness :
  deleteObject Sample.idB (userRoot Sample.idB) "b" "nothing-here" Sample.atLimit
  = (ObjectNotFound, Sample.atLimit).
Proof.
  apply delete_absent_object; vm_compute; reflexivity.
Defined.

Lemma missing_bucket_touches_nothing_witness :
  postObject (H := Sample.crypto) Sample.idB (userRoot Sample.idB) "never-made"
    (Sample.put (H := Sample.crypto) Sample.idB Sample.secretB "never-made" "f" [x2a]).2
    Sample.atLimit
  = (BucketNotFound, Sample.atLimit)
  ∧ getObject Sample.idB (userRoot Sample.idB) "never-made" "f" Sample.atLimit
    = (BucketNotFound, Sample.atLimit)
  ∧ deleteObject Sample.idB (userRoot Sample.idB) "never-made" "f" Sample.atLimit
    = (BucketNotFound, Sample.atLimit).
Proof.
  apply (missing_bucket_touches_nothing (H := Sample.crypto)).
  vm_compute; reflexivity.
Defined.


Lemma written_object_is_not_served_witness :
  let req := (Sample.put (H := Sample.crypto) Sample.idA Sample.secretA "a" "f"
                [x01; x02; x03]).2 in
  let st' := (postObject (H := Sample.crypto) Sample.idA (userRoot Sample.idA) "a"
                req (Sample.provisioned (H := Sample.crypto))).2 in
  "010203" = md5_hex (Crypto := Sample.crypto) [x01; x02; x03]
  ∧ stored (objectPath Sample.idA "a" "f") st' = Some [x01; x02; x03]
  ∧ getObject Sample.idA (userRoot Sample.idA) "a" "f" st' = (ObjectNotFound, st').
Proof.
  intros req st'.
  apply (written_object_is_not_served (H := Sample.crypto)) with
    (req := req) (st := Sample.provisioned (H := Sample.crypto));
    vm_compute; reflexivity.
Defined.

Lemma overwrite_is_charged_twice_witness :
  let req1 := (Sample.put (H := Sample.crypto) Sample.idA Sample.secretA "a" "f"
                 [x01; x02; x03]).2 in
  let req2 := (Sample.put (H := Sample.crypto) Sample.idA Sample.secretA "a" "f"
                 [x04]).2 in
  let st1 := (postObject (H := Sample.crypto) Sample.idA (userRoot Sample.idA) "a"
                req1 (Sample.provisioned (H := Sample.crypto))).2 in
  let st2 := (postObject (H := Sample.crypto) Sample.idA (userRoot Sample.idA) "a"
                req2 st1).2 in
  stored (objectPath Sample.idA "a" "f") st2 = Some [x04]
  ∧ "04" = md5_hex (Crypto := Sample.crypto) [x04]
  ∧ bytesUsed Sample.idA st2
    = Some (0 + Z.of_nat (length [x01; x02; x03]) + Z.of_nat (length [x04]))%Z.
Proof.
  intros req1 req2 st1 st2.
  apply (overwrite_is_charged_twice (H := Sample.crypto)) with
    (req1 := req1) (req2 := req2) (etag1 := "010203")
    (st := Sample.provisioned (H := Sample.crypto)) (st1 := st1)
    (apiKey := mkApiKey Sample.secretA "free" 0);
    vm_compute; reflexivity.
Defined.

(** The same two writes and the read that follows, sent through the
    whole middleware chain: one byte is stored, four are charged, and the
    read is answered [ObjectNotFound]. *)
Example putTwice_then_get :
  let st := run (H := Sample.crypto) (Sample.putTwice (H := Sample.crypto)) initial in
  stored (objectPath Sample.idA "a" "f") st = Some [x04]
  ∧ storedBytes Sample.idA (disk st) = 1%Z
  ∧ bytesUsed Sample.idA st = Some 4%Z
  ∧ (handle (H := Sample.crypto) Sample.now (GetObject "a" "f")
       (Sample.signed (H := Sample.crypto) Sample.idA Sample.secretA
          "GET" "/buckets/a/objects/f" None None) st).1
    = Answer ObjectNotFound.
Proof. vm_compute. repeat split. Qed.

Lemma tally_inj i j : Sample.tally i = Sample.tally j → i = j.
Proof.
  revert j. induction i as [|i IH]; intros [|j]; try done.
  intros [= E]. f_equal. by apply IH.
Qed.

Lemma tally_noSlash i : NodePath.noSlash (Sample.tally i) = true.
Proof. induction i; [done|]. cbn. done. Qed.

Lemma fileName_plain i : NodePath.plain (Sample.fileName i).
Proof.
  unfold NodePath.plain, Sample.fileName. repeat split; try done.
  cbn. apply tally_noSlash.
Qed.

Lemma uploadPath_intoB f :
  NodePath.plain f →
  uploadPath (userRoot Sample.idA) "a" (Sample.intoB f) = Sample.inB f.
Proof.
  intros Hf. rewrite uploadPath_objectPath. unfold objectPath.
  rewrite NodePathFacts.join_3; [|done..].
  change (NodePath.normalize
            ("storage/00000000000000000000000000000000/a/../../11111111111111111111111111111111/b"
             +:+ "/" +:+ f) = Sample.inB f).
  rewrite (NodePathFacts.normalize_onto _ f
             ["storage"; "11111111111111111111111111111111"; "b"]);
    done.
Qed.

Lemma inB_inj f g : Sample.inB f = Sample.inB g → f = g.
Proof. unfold Sample.inB. apply String.app_inj. Qed.

Lemma under_inB f : under Sample.idB (Sample.inB f) = true.
Proof. reflexivity. Qed.

Lemma inB_not_rootA f : Sample.inB f ≠ userRoot Sample.idA.
Proof. discriminate. Qed.

(** ** A run that overfills a bucket *)

Section Flood.

Local Existing Instance Sample.crypto.

(** A signed raw upload that passes every check. *)
Lemma handle_put accessKeyId secret bucketName key (data : list byte) st apiKey :
  accessKeyId ≠ "" → key ≠ "" →
  apiKeys st !! accessKeyId = Some apiKey →
  secretAccessKey apiKey = secret →
  (∀ d, disk st !! userRoot accessKeyId ≠ Some (File d)) →
  NodeFs.dropTrailingSlash (userRoot accessKeyId) = userRoot accessKeyId →
  bucketExists accessKeyId bucketName st = true →
  js_gt (storageUsed apiKey + Z.of_nat (length data))
        (STORAGE_LIMITS (plan apiKey)) = false →
  NodePath.endsWithSlash (uploadPath (userRoot accessKeyId) bucketName key) = false →
  uploadPath (userRoot accessKeyId) bucketName key ≠ userRoot accessKeyId →
  disk st !! uploadPath (userRoot accessKeyId) bucketName key ≠ Some Dir →
  handle Sample.now (PostObject bucketName)
    (Sample.put accessKeyId secret bucketName key data).2 st
  = (Answer (mkResponse 201 (JsonETag (md5_hex data))),
     mkState (<[accessKeyId := set_storageUsed
                  (storageUsed apiKey + Z.of_nat (length data)) apiKey]> (apiKeys st))
             (buckets st)
             (<[uploadPath (userRoot accessKeyId) bucketName key := File data]>
                (<[userRoot accessKeyId := Dir]> (disk st)))).
Proof.
  intros Hid Hf Hk Hsec Hroot Hdrop Hb Hgt Hends Hne Hnd.
  unfold handle, Sample.put, Sample.signed, Sample.signedAt. cbn [snd].
  rewrite (authenticateRequest_passes _ _ _ accessKeyId
             (hmac_sha256_hex secret
                ("POST" +:+ ("/buckets/" +:+ bucketName +:+ "/objects") +:+ Sample.timestamp))
             Sample.timestamp apiKey); try done.
  - assert (NodeFs.mkdir (userRoot accessKeyId) (disk st)
            = Ok (<[userRoot accessKeyId := Dir]> (disk st))) as ->.
    { unfold NodeFs.mkdir. rewrite Hdrop.
      destruct (disk st !! userRoot accessKeyId) as [[d|]|] eqn:E; [|done..].
      by destruct (Hroot d). }
    assert (NodeFs.writeFile (uploadPath (userRoot accessKeyId) bucketName key)
              data (<[userRoot accessKeyId := Dir]> (disk st))
            = Ok (<[uploadPath (userRoot accessKeyId) bucketName key := File data]>
                    (<[userRoot accessKeyId := Dir]> (disk st)))) as Hw.
    { unfold NodeFs.writeFile. rewrite Hends, lookup_insert_ne by done.
      destruct (disk st !! uploadPath _ _ _) as [[d|]|]; done. }
    assert (upload (mkRequest "POST" ("/buckets/" +:+ bucketName +:+ "/objects")
                      (Some accessKeyId)
                      (Some (hmac_sha256_hex secret
                         ("POST" +:+ ("/buckets/" +:+ bucketName +:+ "/objects")
                          +:+ Sample.timestamp)))
                      (Some Sample.timestamp) (Some key) None None (Some data)
                      None None None)
            = Some (key, data)) as Hu.
    { unfold upload. cbn. by destruct key. }
    set (st1 := set_disk (λ _, <[userRoot accessKeyId := Dir]> (disk st)) st).
    assert (bucketExists accessKeyId bucketName st1 = true) as Hb1 by done.
    assert (apiKeys st1 !! accessKeyId = Some apiKey) as Hk1 by done.
    cbn [xAccessID default]. unfold answered.
    rewrite (postObject_upload _ _ _ _ _ _ _ Hb1 Hu). unfold respondSaved.
    rewrite (saveObject_ok _ _ _ _ _ _ Hk1 Hgt Hw). reflexivity.
  - unfold hmac_sha256_hex, Sample.crypto. by destruct secret.
  - by rewrite Hsec.
Qed.

End Flood.

Section Overfill.

Local Existing Instance Sample.crypto.

Variable data : list byte.
Hypothesis data_size : Z.of_nat (length data) = Sample.chunkSize.

Lemma provisioned_state :
  Sample.provisioned
  = mkState (<[Sample.idB := mkApiKey Sample.secretB "free" 0]>
               (<[Sample.idA := mkApiKey Sample.secretA "free" 0]> ∅))
            [mkBucket "a" Sample.idA; mkBucket "b" Sample.idB]
            (<[NodePath.join [userRoot Sample.idB; "b"] := Dir]>
               (<[NodePath.join [userRoot Sample.idA; "a"] := Dir]>
                  (<[STORAGE_ROOT := Dir]> ∅))).
Proof. vm_compute. reflexivity. Qed.

Lemma flooded_0 : Sample.flooded 0 Sample.provisioned.
Proof.
  rewrite provisioned_state. split; cbn [apiKeys buckets disk].
  - reflexivity.
  - reflexivity.
  - reflexivity.
  - intros d. vm_compute. discriminate.
  - intros d. vm_compute. discriminate.
  - intros f _. rewrite !lookup_insert_ne by discriminate. apply lookup_empty.
  - vm_compute. reflexivity.
Qed.

Lemma flood_step n st :
  (n < 102)%nat → Sample.flooded n st →
  Sample.flooded (S n)
    (handle Sample.now (PostObject "a")
       (Sample.put Sample.idA Sample.secretA "a" (Sample.intoB (Sample.fileName n)) data).2
       st).2.
Proof.
  intros Hn [HA HB Hbs HrA HrB Hfree Hbytes].
  pose proof (uploadPath_intoB _ (fileName_plain n)) as Hpath.
  rewrite (handle_put Sample.idA Sample.secretA "a" (Sample.intoB (Sample.fileName n))
             data st _ ltac:(done) ltac:(done) HA eq_refl HrA eq_refl).
  - rewrite Hpath. cbn [snd storageUsed]. rewrite data_size.
    split; cbn [apiKeys buckets disk].
    + rewrite lookup_insert_eq. unfold set_storageUsed. cbn. do 2 f_equal. lia.
    + rewrite lookup_insert_ne by done. exact HB.
    + exact Hbs.
    + intros d. rewrite lookup_insert_ne by apply inB_not_rootA.
      by rewrite lookup_insert_eq.
    + intros d. rewrite !lookup_insert_ne by discriminate. apply HrB.
    + intros f Hf. rewrite !lookup_insert_ne.
      * apply Hfree. destruct Hf as [->|(j & Hj & ->)]; [by left|].
        right. exists j. split; [lia|done].
      * discriminate.
      * intros E%inB_inj. destruct Hf as [->|(j & Hj & ->)]; [done|].
        injection E as E%tally_inj. lia.
    + rewrite storedBytes_insert_file.
      * rewrite under_inB, storedBytes_insert_dir by done. rewrite Hbytes. lia.
      * rewrite lookup_insert_ne by (apply not_eq_sym, inB_not_rootA).
        apply Hfree. right. exists n. done.
  - unfold bucketExists. rewrite Hbs. reflexivity.
  - cbn [storageUsed plan]. rewrite data_size. unfold js_gt, STORAGE_LIMITS.
    cbn. apply bool_decide_eq_false_2. unfold Sample.chunkSize. lia.
  - rewrite Hpath. unfold Sample.inB.
    rewrite NodePathFacts.endsWithSlash_app by done.
    apply NodePathFacts.endsWithSlash_noSlash, fileName_plain.
  - rewrite Hpath. apply inB_not_rootA.
  - rewrite Hpath, Hfree; [done|]. right. exists n. done.
Qed.

Lemma run_app `{Crypto} l1 l2 st : run (l1 ++ l2) st = run l2 (run l1 st).
Proof. apply fold_left_app. Qed.

Lemma flood_S n :
  Sample.flood data (S n)
  = (Sample.flood data n
     ++ [Sample.put Sample.idA Sample.secretA "a" (Sample.intoB (Sample.fileName n)) data])%list.
Proof. unfold Sample.flood. by rewrite seq_S, map_app. Qed.

Lemma flooded_run n :
  (n ≤ 102)%nat →
  Sample.flooded n (run (Sample.provisioning ++ Sample.flood data n) initial).
Proof.
  induction n as [|n IH]; intros Hn.
  - unfold Sample.flood. cbn [seq map]. rewrite app_nil_r. apply flooded_0.
  - rewrite flood_S, app_assoc, run_app. apply flood_step; [lia|].
    apply IH. lia.
Qed.

(** Once A has put 102 bodies of 10 MiB into B's bucket, B's own upload
    of 10 MiB is accepted. *)
Lemma overfill_outcome :
  let st := run (Sample.provisioning ++ Sample.flood data 102) initial in
  let out := handle Sample.now (PostObject "b")
               (Sample.put Sample.idB Sample.secretB "b" "g" data).2 st in
  out.1 = Answer (mkResponse 201 (JsonETag (md5_hex data)))
  ∧ apiKeys out.2 !! Sample.idB = Some (mkApiKey Sample.secretB "free" Sample.chunkSize)
  ∧ storedBytes Sample.idB (disk out.2) = (103 * Sample.chunkSize)%Z.
Proof.
  intros st out.
  destruct (flooded_run 102 ltac:(lia)) as [HA HB Hbs HrA HrB Hfree Hbytes].
  fold st in HA, HB, Hbs, HrA, HrB, Hfree, Hbytes.
  assert (uploadPath (userRoot Sample.idB) "b" "g" = Sample.inB "g") as Hpath
    by reflexivity.
  assert (disk st !! Sample.inB "g" = None) as Hg by (apply Hfree; by left).
  unfold out.
  rewrite (handle_put Sample.idB Sample.secretB "b" "g"
             data st _ ltac:(done) ltac:(done) HB eq_refl HrB eq_refl).
  - rewrite Hpath. cbn [fst snd apiKeys disk storageUsed]. rewrite data_size.
    split; [done|]. split.
    + rewrite lookup_insert_eq. reflexivity.
    + rewrite storedBytes_insert_file.
      * rewrite under_inB, storedBytes_insert_dir by done. rewrite Hbytes. lia.
      * rewrite lookup_insert_ne by discriminate. done.
  - unfold bucketExists. rewrite Hbs. reflexivity.
  - cbn [storageUsed plan]. rewrite data_size. reflexivity.
  - reflexivity.
  - discriminate.
  - rewrite Hpath, Hg. done.
Qed.

End Overfill.

Lemma chunk_size : Z.of_nat (length Sample.chunk) = Sample.chunkSize.
Proof. unfold Sample.chunk. rewrite repeat_length, Z2Nat.id; [done|]. by vm_compute. Qed.

(** C3, where the code departs from it.  Both owners are on the plan
    "free".  A puts 102 bodies of 10 MiB into B's bucket, under keys that
    climb out of its own bucket; each is charged to A, which stays within
    its limit.  B then uploads 10 MiB of its own: the write is answered
    201, B's bytes-used is 10 MiB, and 1030 MiB are stored under B's root,
    above the 1024 MiB its plan allows. *)
Theorem stored_bytes_exceed_the_plan_limit :
  let st := run (H := Sample.crypto)
              (Sample.provisioning ++ Sample.flood (H := Sample.crypto) Sample.chunk 102) initial in
  let out := handle (H := Sample.crypto) Sample.now (PostObject "b")
               (Sample.put (H := Sample.crypto) Sample.idB Sample.secretB "b" "g" Sample.chunk).2
               st in
  out.1 = Answer (mkResponse 201 (JsonETag (md5_hex (Crypto := Sample.crypto) Sample.chunk)))
  ∧ apiKeys out.2 !! Sample.idB = Some (mkApiKey Sample.secretB "free" Sample.chunkSize)
  ∧ STORAGE_LIMITS "free" = Some 1073741824%Z
  ∧ storedBytes Sample.idB (disk out.2) = 1080033280%Z.
Proof.
  intros st out.
  destruct (overfill_outcome Sample.chunk chunk_size) as (Hans & Hkey & Hbytes).
  split; [exact Hans|]. split; [exact Hkey|]. split; [reflexivity|].
  exact Hbytes.
Qed.

(** * Further properties of the handlers *)

Section Authenticator.

Context `{Crypto}.

(** [authenticateRequest] once the three headers are there. *)
Lemma authenticateRequest_with_headers now req st accessId signature timestamp :
  xAccessID req = Some accessId → accessId ≠ "" →
  xSignature req = Some signature → signature ≠ "" →
  xTimestamp req = Some timestamp → timestamp ≠ "" →
  authenticateRequest now req st
  = match apiKeys st !! accessId with
    | None => Responded UnknownIdentity
    | Some apiKey =>
        if JsNumber.lt (JsNumber.parseInt timestamp) (now - 15 * 60 * 1000)
        then Responded RequestExpired
        else if bool_decide
                  (hmac_sha256_hex (secretAccessKey apiKey)
                     (method req +:+ originalUrl req +:+ timestamp) ≠ signature)
        then Responded InvalidSignature
        else match NodeFs.mkdir (userRoot accessId) (disk st) with
             | Ok fs' => Next (userRoot accessId) (set_disk (λ _, fs') st)
             | Throw e => Rejection e st
             end
    end.
Proof.
  intros Ha Ha' Hs Hs' Ht Ht'. unfold authenticateRequest.
  rewrite Ha, Hs, Ht.
  destruct accessId; [done|]. destruct signature; [done|].
  destruct timestamp; [done|]. reflexivity.
Qed.

(** X1. A request to an object route that lacks one of the three
    authentication headers, or carries it empty, is answered 401
    "Missing authentication headers" and changes nothing, whatever the
    stores hold. *)
Theorem request_without_header_is_turned_away now route req st :
  adminRoute route = false →
  js_truthy (xAccessID req) && js_truthy (xSignature req)
    && js_truthy (xTimestamp req) = false →
  handle now route req st = (Answer MissingCredentials, st).
Proof.
  intros Hroute Hmissing.
  assert (authenticateRequest now req st = Responded MissingCredentials) as Hauth.
  { unfold authenticateRequest.
    destruct (js_truthy (xAccessID req)), (js_truthy (xSignature req)),
      (js_truthy (xTimestamp req)); try discriminate; reflexivity. }
  unfold handle. rewrite Hauth. by destruct route.
Qed.

(** X2. A request whose access id has no credential is answered 401
    "Invalid Access ID" before its timestamp or signature is looked at,
    and changes nothing. *)
Theorem unknown_access_id_is_turned_away
    now route req st accessId signature timestamp :
  adminRoute route = false →
  xAccessID req = Some accessId → accessId ≠ "" →
  xSignature req = Some signature → signature ≠ "" →
  xTimestamp req = Some timestamp → timestamp ≠ "" →
  apiKeys st !! accessId = None →
  handle now route req st = (Answer UnknownIdentity, st).
Proof.
  intros Hroute Ha Ha' Hs Hs' Ht Ht' Hk. unfold handle.
  rewrite (authenticateRequest_with_headers _ _ _ _ _ _ Ha Ha' Hs Hs' Ht Ht'), Hk.
  by destruct route.
Qed.

(** X3. The freshness window.  For a known credential and a timestamp
    that [parseInt] reads as [n]: the request is answered 401 "Request
    expired" exactly when [n] is more than 15 minutes before the server's
    clock, whatever its signature; at 15 minutes sharp, and at any later
    [n] however far in the future, it is not. *)
Theorem freshness_window now req st accessId signature timestamp apiKey n :
  xAccessID req = Some accessId → accessId ≠ "" →
  xSignature req = Some signature → signature ≠ "" →
  xTimestamp req = Some timestamp → timestamp ≠ "" →
  apiKeys st !! accessId = Some apiKey →
  JsNumber.parseInt timestamp = Some n →
  authenticateRequest now req st = Responded RequestExpired
  ↔ (n < now - 900000)%Z.
Proof.
  intros Ha Ha' Hs Hs' Ht Ht' Hk Hn.
  rewrite (authenticateRequest_with_headers _ _ _ _ _ _ Ha Ha' Hs Hs' Ht Ht'), Hk, Hn.
  unfold JsNumber.lt. change (15 * 60 * 1000)%Z with 900000%Z.
  case_bool_decide as Hlt.
  - done.
  - split; [|done]. case_bool_decide; [discriminate|].
    destruct (NodeFs.mkdir _ _); discriminate.
Qed.

(** X4. A request of a known credential, fresh, whose signature is not
    the HMAC of method, URL and timestamp under the credential's secret
    is answered 401 "Invalid signature"; neither store changes. *)
Theorem wrong_signature_is_turned_away
    now route req st accessId signature timestamp apiKey :
  adminRoute route = false →
  xAccessID req = Some accessId → accessId ≠ "" →
  xSignature req = Some signature → signature ≠ "" →
  xTimestamp req = Some timestamp → timestamp ≠ "" →
  apiKeys st !! accessId = Some apiKey →
  JsNumber.lt (JsNumber.parseInt timestamp) (now - 15 * 60 * 1000) = false →
  signature ≠ hmac_sha256_hex (secretAccessKey apiKey)
                (method req +:+ originalUrl req +:+ timestamp) →
  handle now route req st = (Answer InvalidSignature, st).
Proof.
  intros Hroute Ha Ha' Hs Hs' Ht Ht' Hk Hfresh Hsig. unfold handle.
  rewrite (authenticateRequest_with_headers _ _ _ _ _ _ Ha Ha' Hs Hs' Ht Ht'),
    Hk, Hfresh.
  rewrite bool_decide_eq_true_2 by (intros E; by apply Hsig).
  by destruct route.
Qed.

(** X5. Whatever [authenticateRequest] passes on is genuine: the three
    headers are present, the access id names a credential, the signature
    is the HMAC of method, URL and timestamp under that credential's
    secret, the timestamp is not older than the window, and the storage
    root bound to the request is the one of that access id.  The metadata
    store is as it was. *)
Theorem authenticated_request_is_genuine now req st root st' :
  authenticateRequest now req st = Next root st' →
  ∃ accessId timestamp apiKey,
    xAccessID req = Some accessId ∧ accessId ≠ ""
    ∧ xTimestamp req = Some timestamp
    ∧ apiKeys st !! accessId = Some apiKey
    ∧ xSignature req
      = Some (hmac_sha256_hex (secretAccessKey apiKey)
                (method req +:+ originalUrl req +:+ timestamp))
    ∧ JsNumber.lt (JsNumber.parseInt timestamp) (now - 15 * 60 * 1000) = false
    ∧ root = userRoot accessId
    ∧ apiKeys st' = apiKeys st ∧ buckets st' = buckets st.
Proof.
  unfold authenticateRequest.
  destruct (xAccessID req) as [accessId|] eqn:Ha; [|by rewrite ?orb_true_r].
  destruct (xSignature req) as [signature|] eqn:Hs;
    [|by cbn; rewrite ?orb_true_r].
  destruct (xTimestamp req) as [timestamp|] eqn:Ht;
    [|by cbn; rewrite ?orb_true_r].
  destruct (negb (js_truthy (Some accessId)) || _ || _) eqn:Htruthy; [done|].
  destruct (apiKeys st !! accessId) as [apiKey|] eqn:Hk; [|done].
  destruct (JsNumber.lt _ _) eqn:Hfresh; [done|].
  case_bool_decide as Hsig; [done|].
  destruct (NodeFs.mkdir _ _) as [fs'|e]; [|done].
  intros [= <- <-]. exists accessId, timestamp, apiKey.
  assert (accessId ≠ "") as Hne by (by intros ->).
  assert (hmac_sha256_hex (secretAccessKey apiKey)
            (method req +:+ originalUrl req +:+ timestamp) = signature) as <-.
  { destruct (decide (hmac_sha256_hex (secretAccessKey apiKey)
                        (method req +:+ originalUrl req +:+ timestamp) = signature));
      [done|by destruct Hsig]. }
  done.
Qed.

End Authenticator.

Section Provisioning.

Context `{Crypto}.

(** X6. Without the admin key in [X-Admin-API-Key], both admin routes
    answer 401 "Unauthorized" and change nothing; no other header is
    looked at. *)
Theorem admin_routes_need_the_admin_key now route req st :
  adminRoute route = true →
  xAdminAPIKey req ≠ Some ADMIN_API_KEY →
  handle now route req st
  = (Answer (mkResponse 401 (JsonError "Unauthorized")), st).
Proof.
  intros Hroute Hkey. unfold handle, authenticateAdmin.
  destruct route; try discriminate; by rewrite bool_decide_eq_false_2.
Qed.

Lemma bucketExists_elem accessKeyId bucketName st :
  bucketExists accessKeyId bucketName st = true
  ↔ mkBucket bucketName accessKeyId ∈ buckets st.
Proof.
  unfold bucketExists. rewrite existsb_exists. split.
  - intros ([n o] & Hin & Hb). apply bool_decide_eq_true in Hb as [Hn Ho].
    cbn in Hn, Ho. subst. by apply list_elem_of_In.
  - intros Hin. exists (mkBucket bucketName accessKeyId).
    split; [by apply list_elem_of_In|]. by apply bool_decide_eq_true.
Qed.

(** X7. [GET /buckets] lists a name exactly when the bucket directory has
    the row (name, caller): the caller's buckets and nobody else's; it
    changes nothing. *)
Theorem listed_buckets_are_the_callers accessKeyId st :
  ∃ names,
    listBuckets accessKeyId st = (mkResponse 200 (JsonBuckets names), st)
    ∧ ∀ bucketName,
        bucketName ∈ names ↔ bucketExists accessKeyId bucketName st = true.
Proof.
  eexists. split; [reflexivity|]. intros bucketName.
  rewrite bucketExists_elem, list_elem_of_fmap. split.
  - intros ([n o] & -> & [Ho Hin]%list_elem_of_filter). cbn in *. by subst.
  - intros Hin. exists (mkBucket bucketName accessKeyId). split; [done|].
    by apply list_elem_of_filter.
Qed.

Lemma createBucket_refuses req st :
  js_truthy (bodyAccessKeyId req) && js_truthy (bodyBucketName req) = false →
  createBucket req st
  = (mkResponse 400 (JsonError "Missing accessKeyId or bucketName"), st).
Proof.
  unfold createBucket.
  destruct (js_truthy (bodyAccessKeyId req)), (js_truthy (bodyBucketName req));
    try discriminate; reflexivity.
Qed.

Lemma createBucket_with_fields req st accessKeyId bucketName :
  bodyAccessKeyId req = Some accessKeyId → accessKeyId ≠ "" →
  bodyBucketName req = Some bucketName → bucketName ≠ "" →
  createBucket req st
  = match apiKeys st !! accessKeyId with
    | None => (mkResponse 404 (JsonError "Access key not found"), st)
    | Some _ =>
        match NodeFs.mkdir (NodePath.join [userRoot accessKeyId; bucketName])
                (disk st) with
        | Throw _ => (mkResponse 500 (JsonError "Failed to create bucket"), st)
        | Ok fs' =>
            if bucketExists accessKeyId bucketName st
            then (mkResponse 500 (JsonError "Failed to create bucket"),
                  set_disk (λ _, fs') st)
            else (mkResponse 200 (JsonMessage "Bucket created successfully"),
                  set_buckets (λ bs, (bs ++ [mkBucket bucketName accessKeyId])%list)
                    (set_disk (λ _, fs') st))
        end
    end.
Proof.
  intros Ha Ha' Hb Hb'. unfold createBucket. rewrite Ha, Hb.
  destruct accessKeyId; [done|]. destruct bucketName; [done|].
  cbn [js_truthy negb orb].
  destruct (apiKeys st !! _); [|done].
  unfold async_bind, on_disk, createBucketRow, async_ret.
  destruct (NodeFs.mkdir _ _); [|done].
  change (bucketExists ?a ?b (set_disk ?f st)) with (bucketExists a b st).
  by destruct (bucketExists _ _ st).
Qed.

(** X9. [POST /admin/create-bucket] for a name the credential already
    owns is answered 500 "Failed to create bucket"; the bucket
    directory, the credentials and the stored files are as they were. *)
Theorem duplicate_bucket_is_refused now req st accessKeyId bucketName :
  xAdminAPIKey req = Some ADMIN_API_KEY →
  bodyAccessKeyId req = Some accessKeyId → accessKeyId ≠ "" →
  bodyBucketName req = Some bucketName → bucketName ≠ "" →
  is_Some (apiKeys st !! accessKeyId) →
  bucketExists accessKeyId bucketName st = true →
  ∃ st',
    handle now CreateBucket req st
    = (Answer (mkResponse 500 (JsonError "Failed to create bucket")), st')
    ∧ buckets st' = buckets st
    ∧ apiKeys st' = apiKeys st
    ∧ ∀ p, stored p st' = stored p st.
Proof.
  intros Hadmin Ha Ha' Hb Hb' [k Hk] Hdup. unfold handle, authenticateAdmin.
  rewrite bool_decide_eq_true_2 by done.
  rewrite (createBucket_with_fields _ _ _ _ Ha Ha' Hb Hb'), Hk, Hdup.
  destruct (NodeFs.mkdir _ (disk st)) as [fs'|e] eqn:Hmk.
  - eexists. split; [reflexivity|]. repeat split.
    intros p. apply (stored_mkdir p _ fs' st Hmk).
  - by eexists.
Qed.

(** X10. [POST /admin/create-bucket] without an access key id or without
    a bucket name is answered 400, and for an access key id that has no
    credential 404 "Access key not found"; either way nothing changes. *)
Theorem bucket_request_is_checked now req st :
  xAdminAPIKey req = Some ADMIN_API_KEY →
  (js_truthy (bodyAccessKeyId req) && js_truthy (bodyBucketName req) = false →
   handle now CreateBucket req st
   = (Answer (mkResponse 400 (JsonError "Missing accessKeyId or bucketName")), st))
  ∧ (∀ accessKeyId,
       bodyAccessKeyId req = Some accessKeyId → accessKeyId ≠ "" →
       js_truthy (bodyBucketName req) = true →
       apiKeys st !! accessKeyId = None →
       handle now CreateBucket req st
       = (Answer (mkResponse 404 (JsonError "Access key not found")), st)).
Proof.
  intros Hadmin. unfold handle, authenticateAdmin.
  rewrite bool_decide_eq_true_2 by done. split.
  - intros Hmissing. by rewrite createBucket_refuses.
  - intros accessKeyId Ha Ha' Hb Hk.
    destruct (bodyBucketName req) as [[|c bucketName]|] eqn:E; try discriminate.
    by rewrite (createBucket_with_fields _ _ _ _ Ha Ha' E), Hk.
Qed.

End Provisioning.

(** ** Plain names *)

Module PlainNames.
Import NodePath NodePathFacts.

Lemma plain_stack segs :
  Forall plain segs → nf true (rev segs).
Proof.
  induction segs as [|s segs IH] using rev_ind; [constructor|].
  rewrite Forall_app, Forall_singleton. intros [Hsegs (Hs & H0 & H1 & H2)].
  rewrite rev_unit. constructor; auto. done.
Qed.

Lemma normalizeString_plain segs :
  Forall plain segs → normalizeString true segs = segs.
Proof.
  intros Hf. unfold normalizeString. rewrite fold_keep by by apply plain_stack.
  apply rev_involutive.
Qed.

Lemma plain_not_empty f : plain f → f ≠ "".
Proof. by intros (_ & ? & _). Qed.

Lemma storage_plain : plain "storage".
Proof. by repeat split. Qed.

(** The storage root of a plain access id. *)
Lemma userRoot_plain id : plain id → userRoot id = "storage/" +:+ id.
Proof.
  intros Hid. unfold userRoot, STORAGE_ROOT.
  rewrite join_2 by (done || by apply plain_not_empty).
  by rewrite (normalize_onto "storage" id ["storage"]).
Qed.


Lemma objectPath_plain id b k :
  plain id → plain b → plain k →
  objectPath id b k = "storage/" +:+ id +:+ "/" +:+ b +:+ "/" +:+ k.
Proof.
  intros Hid Hb Hk. unfold objectPath. rewrite userRoot_plain by done.
  assert ("storage/" +:+ id ≠ "") as Hroot by (intros E; discriminate E).
  assert (("storage/" +:+ id) +:+ "/" +:+ b ≠ "") as Hp
    by (intros E; discriminate E).
  rewrite join_3 by (done || by apply plain_not_empty).
  rewrite (normalize_onto _ k ["storage"; id; b] Hp eq_refl); try done.
  - cbn [joinWith]. by rewrite !append_assoc.
  - change ("storage/" +:+ id) with ("storage" +:+ "/" +:+ id).
    rewrite !split_app_slash, (split_noSlash id), (split_noSlash b)
      by (apply Hid || apply Hb).
    apply (normalizeString_plain ["storage"; id; b]).
    repeat constructor; (apply storage_plain || apply Hid || apply Hb).
Qed.

Lemma app_slash_inj a a' r r' :
  noSlash a = true → noSlash a' = true →
  a +:+ "/" +:+ r = a' +:+ "/" +:+ r' → a = a' ∧ r = r'.
Proof.
  revert a'. induction a as [|c a IH]; intros [|c' a'] Ha Ha'.
  - rewrite !app_empty_l. by intros ->%String.app_inj.
  - rewrite app_empty_l, app_String.
    change ("/" +:+ r) with (String "/"%char r). intros [= <- _]. by cbn in Ha'.
  - rewrite app_empty_l, app_String.
    change ("/" +:+ r') with (String "/"%char r'). intros [= -> _]. by cbn in Ha.
  - rewrite !app_String. intros [= <- E]. cbn in Ha, Ha'.
    apply andb_prop in Ha as [_ Ha]. apply andb_prop in Ha' as [_ Ha'].
    destruct (IH a' Ha Ha' E) as [-> ->]. done.
Qed.

Lemma prefix_app a b c : String.prefix (a +:+ b) (a +:+ c) = String.prefix b c.
Proof.
  induction a as [|x a IH]; [done|]. rewrite !app_String. cbn [String.prefix].
  by destruct (ascii_dec x x).
Qed.

Lemma prefix_slash_inj a a' r :
  noSlash a = true → noSlash a' = true →
  String.prefix (a +:+ "/") (a' +:+ "/" +:+ r) = true → a = a'.
Proof.
  revert a'. induction a as [|c a IH]; intros [|c' a'] Ha Ha'; try done.
  - rewrite app_empty_l, app_String. cbn [String.prefix].
    destruct (ascii_dec "/" c') as [<-|]; [by cbn in Ha'|done].
  - rewrite app_empty_l, app_String.
    change ("/" +:+ r) with (String "/"%char r). cbn [String.prefix].
    destruct (ascii_dec c "/") as [->|]; [by cbn in Ha|done].
  - rewrite !app_String. cbn [String.prefix].
    destruct (ascii_dec c c') as [<-|]; [|done]. cbn in Ha, Ha'.
    apply andb_prop in Ha as [_ Ha]. apply andb_prop in Ha' as [_ Ha'].
    intros E. by rewrite (IH a' Ha Ha' E).
Qed.

Lemma under_plain id' id rest :
  plain id' → plain id →
  under id' ("storage/" +:+ id +:+ "/" +:+ rest) = true ↔ id' = id.
Proof.
  intros Hid' Hid. unfold under. rewrite userRoot_plain by done.
  change (("storage/" +:+ id') +:+ "/") with ("storage/" +:+ id' +:+ "/").
  rewrite prefix_app. split.
  - apply prefix_slash_inj; [apply Hid'|apply Hid].
  - intros ->. rewrite prefix_app.
    change ("/" +:+ rest) with (String "/"%char rest). cbn [String.prefix].
    destruct (ascii_dec "/" "/") as [_|Hne]; [by destruct rest|by destruct Hne].
Qed.

End PlainNames.

(** X11. For an access id, a bucket name and a key that are each one
    ordinary path segment (no separator, not empty, not "." or ".."), the
    object is stored at [storage/<id>/<bucket>/<key>]; two such objects
    share a path only if they are the same object, and the path lies
    under the root of no other such owner. *)
Theorem plain_names_keep_objects_apart id b k id' b' k' :
  NodePath.plain id → NodePath.plain b → NodePath.plain k →
  NodePath.plain id' → NodePath.plain b' → NodePath.plain k' →
  objectPath id b k = "storage/" +:+ id +:+ "/" +:+ b +:+ "/" +:+ k
  ∧ (objectPath id b k = objectPath id' b' k' → id = id' ∧ b = b' ∧ k = k')
  ∧ (under id' (objectPath id b k) = true ↔ id' = id).
Proof.
  intros Hid Hb Hk Hid' Hb' Hk'.
  rewrite !PlainNames.objectPath_plain by done. split; [done|]. split.
  - intros E%String.app_inj.
    apply PlainNames.app_slash_inj in E as [-> E]; [|apply Hid|apply Hid'].
    apply PlainNames.app_slash_inj in E as [-> ->]; [done|apply Hb|apply Hb'].
  - by apply PlainNames.under_plain.
Qed.

(** ** Access ids are plain *)

Lemma hex_pair b :
  let hi := NodeBuffer.charAt NodeBuffer.hexDigits (Byte.to_N b / 16) in
  let lo := NodeBuffer.charAt NodeBuffer.hexDigits (Byte.to_N b mod 16) in
  Ascii.eqb hi "/" = false ∧ Ascii.eqb lo "/" = false ∧ hi ≠ "."%char.
Proof. destruct b; vm_compute; done. Qed.

Lemma toHex_noSlash bs : NodePath.noSlash (NodeBuffer.toHex bs) = true.
Proof.
  induction bs as [|b bs IH]; [done|]. cbn [NodeBuffer.toHex NodePath.noSlash].
  destruct (hex_pair b) as (Hhi & Hlo & _). unfold NodePath.slash.
  by rewrite Hhi, Hlo, IH.
Qed.

Lemma toHex_plain bs : bs ≠ [] → NodePath.plain (NodeBuffer.toHex bs).
Proof.
  intros Hbs. split; [apply toHex_noSlash|].
  destruct bs as [|b bs]; [done|]. cbn [NodeBuffer.toHex].
  destruct (hex_pair b) as (_ & _ & Hdot).
  repeat split; try done; intros [= E _]; by apply Hdot.
Qed.

(** ** Quota, upload and delete *)

Section Objects.

Context `{Crypto}.

(** X13. On the plan "free" the quota check accepts a write exactly when
    bytes-used plus its size is at most 1024 * 1024 * 1024: reaching the
    limit is allowed, one byte more is not.  When it accepts it stores
    the sum; when it rejects it stores nothing. *)
Theorem free_plan_limit_is_inclusive accessKeyId apiKey fileSize st :
  apiKeys st !! accessKeyId = Some apiKey →
  plan apiKey = "free" →
  checkStorageLimit accessKeyId fileSize st
  = if bool_decide (storageUsed apiKey + fileSize ≤ 1024 * 1024 * 1024)%Z
    then (Ok (),
          set_apiKeys (insert accessKeyId
             (set_storageUsed (storageUsed apiKey + fileSize) apiKey)) st)
    else (Throw "Storage limit exceeded", st).
Proof.
  intros Hk Hplan. unfold checkStorageLimit, updateApiKey.
  rewrite Hk, Hplan. unfold STORAGE_LIMITS, js_gt.
  rewrite bool_decide_eq_true_2 by done.
  case_bool_decide as Hle.
  - by rewrite bool_decide_eq_false_2 by lia.
  - by rewrite bool_decide_eq_true_2 by lia.
Qed.




(** X16. An upload for which neither [req.file] nor [req.body] is set
    is answered 400 "No file or data uploaded", and one with [req.body]
    set but without an [X-File-Name] header, or with an empty one, 400
    "X-File-Name header is required for raw data uploads"; either way
    nothing is charged and nothing is written. *)
Theorem upload_without_data_or_name_is_refused
    accessKeyId userStorageRoot bucketName req st :
  bucketExists accessKeyId bucketName st = true →
  file req = None →
  (body req = None →
   postObject accessKeyId userStorageRoot bucketName req st
   = (mkResponse 400 (JsonError "No file or data uploaded"), st))
  ∧ (is_Some (body req) → js_truthy (xFileName req) = false →
     postObject accessKeyId userStorageRoot bucketName req st
     = (mkResponse 400
          (JsonError "X-File-Name header is required for raw data uploads"), st)).
Proof.
  intros Hb Hfile. unfold postObject. rewrite Hb, Hfile. cbn [negb]. split.
  - by intros ->.
  - intros [data ->] Hname. destruct (xFileName req) as [fileName|]; [|done].
    by rewrite Hname.
Qed.

(** The delete handler, case by case. *)
Lemma deleteObject_cases accessKeyId bucketName objectKey st :
  bucketExists accessKeyId bucketName st = true →
  deleteObject accessKeyId (userRoot accessKeyId) bucketName objectKey st
  = match stored (objectPath accessKeyId bucketName objectKey) st with
    | Some data =>
        match apiKeys st !! accessKeyId with
        | Some apiKey =>
            (mkResponse 204 Empty,
             mkState (<[accessKeyId := set_storageUsed
                          (storageUsed apiKey - Z.of_nat (length data)) apiKey]>
                        (apiKeys st))
                     (buckets st)
                     (delete (objectPath accessKeyId bucketName objectKey) (disk st)))
        | None =>
            (ObjectNotFound,
             set_disk (delete (objectPath accessKeyId bucketName objectKey)) st)
        end
    | None => (ObjectNotFound, st)
    end.
Proof.
  intros Hb. unfold deleteObject, objectPath, stored. rewrite Hb. cbn [negb].
  set (filePath := NodePath.join _).
  unfold async_bind, from_disk, on_disk, NodeFs.stat_size, NodeFs.unlink,
    NodeFs.resolve, updateApiKey, async_ret.
  destruct (NodePath.endsWithSlash filePath).
  - by destruct (disk st !! NodeFs.dropTrailingSlash filePath) as [[d|]|].
  - destruct (disk st !! filePath) as [[d|]|]; [|done..].
    cbn [set_disk apiKeys disk buckets].
    by destruct (apiKeys st !! accessKeyId).
Qed.

(** X17. An upload of a multipart file or of raw bytes (the payloads of
    [upload]) that is answered 201, followed by the delete of the same
    object: the delete is answered 204, removes the object and takes the
    caller's bytes-used back to what it was before the upload; no other
    path is left changed by the pair, and a second delete of the key is
    answered [ObjectNotFound]. *)
Theorem delete_undoes_upload
    accessKeyId bucketName req key data etag apiKey st st1 :
  apiKeys st !! accessKeyId = Some apiKey →
  upload req = Some (key, data) →
  postObject accessKeyId (userRoot accessKeyId) bucketName req st
  = (mkResponse 201 (JsonETag etag), st1) →
  ∃ st2,
    deleteObject accessKeyId (userRoot accessKeyId) bucketName key st1
    = (mkResponse 204 Empty, st2)
    ∧ bytesUsed accessKeyId st2 = Some (storageUsed apiKey)
    ∧ stored (objectPath accessKeyId bucketName key) st2 = None
    ∧ (∀ p, p ≠ objectPath accessKeyId bucketName key →
            disk st2 !! p = disk st !! p)
    ∧ deleteObject accessKeyId (userRoot accessKeyId) bucketName key st2
      = (ObjectNotFound, st2).
Proof.
  intros Hk Hu Hp.
  destruct (postObject_created _ _ _ _ _ _ _ _ _ Hu Hp) as [Hb Hsave].
  rewrite uploadPath_objectPath in Hsave.
  destruct (saveObject_inv _ _ _ _ _ _ _ Hsave)
    as (k & fs1 & Hk1 & _ & Hw & _ & ->).
  rewrite Hk in Hk1. injection Hk1 as <-.
  pose proof (stored_written _ _ _ _ (<[accessKeyId := set_storageUsed
                 (storageUsed apiKey + Z.of_nat (length data)) apiKey]> (apiKeys st))
                (buckets st) Hw) as Hstored.
  pose proof (writeFile_inv _ _ _ _ Hw) as (Hs & _ & ->).
  rewrite deleteObject_cases by exact Hb.
  rewrite Hstored. cbn [apiKeys buckets disk].
  rewrite lookup_insert_eq. eexists. split; [reflexivity|].
  assert (stored (objectPath accessKeyId bucketName key)
            (mkState (<[accessKeyId := set_storageUsed
                          (storageUsed (set_storageUsed
                             (storageUsed apiKey + Z.of_nat (length data)) apiKey)
                           - Z.of_nat (length data))
                          (set_storageUsed
                             (storageUsed apiKey + Z.of_nat (length data)) apiKey)]>
                        (<[accessKeyId := set_storageUsed
                             (storageUsed apiKey + Z.of_nat (length data)) apiKey]>
                           (apiKeys st)))
                     (buckets st)
                     (delete (objectPath accessKeyId bucketName key)
                        (<[objectPath accessKeyId bucketName key := File data]>
                           (disk st)))) = None) as Hgone.
  { unfold stored, NodeFs.resolve. cbn [disk]. by rewrite Hs, lookup_delete_eq. }
  repeat split.
  - unfold bytesUsed. cbn [apiKeys]. rewrite lookup_insert_eq. cbn. f_equal. lia.
  - exact Hgone.
  - intros p Hne. cbn [disk]. by rewrite lookup_delete_ne, lookup_insert_ne.
  - rewrite deleteObject_cases by exact Hb. by rewrite Hgone.
Qed.

End Objects.

(** ** What a request can do to the stores *)

Section Steps.

Context `{Crypto}.
Variable P : string → string → Prop.
Variable D : list byte → Prop.

Lemma authenticateRequest_next now req st root st1 :
  authenticateRequest now req st = Next root st1 →
  ∃ accessId apiKey q,
    xAccessID req = Some accessId
    ∧ apiKeys st !! accessId = Some apiKey
    ∧ root = userRoot accessId
    ∧ (∀ d, disk st !! q ≠ Some (File d))
    ∧ st1 = mkState (apiKeys st) (buckets st) (<[q := Dir]> (disk st)).
Proof.
  unfold authenticateRequest.
  destruct (negb (js_truthy (xAccessID req)) || _ || _); [done|].
  destruct (xAccessID req) as [accessId|]; [|done].
  destruct (xSignature req) as [signature|]; [|done].
  destruct (xTimestamp req) as [timestamp|]; [|done].
  destruct (apiKeys st !! accessId) as [apiKey|] eqn:Hk; [|done].
  destruct (JsNumber.lt _ _); [done|]. case_bool_decide; [done|].
  unfold NodeFs.mkdir.
  set (q := NodeFs.dropTrailingSlash (NodePath.join [STORAGE_ROOT; accessId])).
  destruct (disk st !! q) as [[d|]|] eqn:E; [done|..]; intros [= <- <-];
    exists accessId, apiKey, q; repeat split; try done; congruence.
Qed.

Lemma authenticateRequest_other now req st :
  (∀ root st1, authenticateRequest now req st ≠ Next root st1) →
  stateAfter (authenticateRequest now req st) st = st.
Proof.
  intros Hnot. destruct (authenticateRequest now req st) as [r|root st1|e st1] eqn:E.
  - done.
  - by destruct (Hnot root st1).
  - revert E. unfold authenticateRequest.
    repeat (case_match; try done). by intros [= _ <-].
Qed.

Lemma postObject_steps accessKeyId bucketName req st :
  (∀ key data, upload req = Some (key, data) → P bucketName key) →
  rtc (Step P D) st
    (postObject accessKeyId (userRoot accessKeyId) bucketName req st).2.
Proof.
  intros Hadm.
  destruct (bucketExists accessKeyId bucketName st) eqn:Hb;
    [|unfold postObject; by rewrite Hb].
  destruct (upload req) as [[key data]|] eqn:Hu.
  - rewrite (postObject_upload _ _ _ _ _ _ _ Hb Hu), uploadPath_objectPath.
    unfold respondSaved, saveObject, async_bind, checkStorageLimit, updateApiKey.
    destruct (apiKeys st !! accessKeyId) as [apiKey|] eqn:Hk; [|done].
    destruct (js_gt _ _) eqn:Hgt; [done|].
    unfold on_disk, from_disk, async_ret. cbn [disk set_apiKeys apiKeys buckets].
    destruct (NodeFs.writeFile _ data (disk st)) as [fs'|e] eqn:Hw.
    + cbn [disk set_disk apiKeys buckets].
      rewrite (readFile_written _ _ _ _ Hw). cbn [snd].
      apply rtc_once,
        (step_put P D st accessKeyId bucketName key data apiKey fs'
           (Hadm key data eq_refl) Hk Hgt).
      right. by apply writeFile_inv in Hw as (_ & _ & ->).
    + case_bool_decide; cbn [snd];
        apply rtc_once,
          (step_put P D st accessKeyId bucketName key data apiKey (disk st)
             (Hadm key data eq_refl) Hk Hgt); by left.
  - unfold postObject, upload in *. rewrite Hb. cbn [negb].
    destruct (file req); [done|]. destruct (body req); [|done].
    destruct (xFileName req) as [fileName|]; [|done].
    by destruct (js_truthy (Some fileName)).
Qed.

Lemma deleteObject_steps accessKeyId bucketName objectKey st :
  P bucketName objectKey →
  is_Some (apiKeys st !! accessKeyId) →
  rtc (Step P D) st
    (deleteObject accessKeyId (userRoot accessKeyId) bucketName objectKey st).2.
Proof.
  intros Hadm [apiKey Hk].
  destruct (bucketExists accessKeyId bucketName st) eqn:Hb;
    [|unfold deleteObject; by rewrite Hb].
  rewrite (deleteObject_cases _ _ _ _ Hb), Hk.
  destruct (stored _ st) as [data|] eqn:Hs; [|done].
  apply stored_inv in Hs as [_ Hs]. cbn [snd].
  by apply rtc_once, (step_delete P D st accessKeyId bucketName objectKey data apiKey).
Qed.

Lemma getObject_state accessKeyId root bucketName objectKey st :
  (getObject accessKeyId root bucketName objectKey st).2 = st.
Proof.
  unfold getObject, async_bind, from_disk.
  destruct (negb _); [done|]. destruct (NodeFs.access _ _); [|done].
  by destruct (Express.sendFile _).
Qed.

Lemma createBucket_steps req st :
  rtc (Step P D) st (createBucket req st).2.
Proof.
  destruct (js_truthy (bodyAccessKeyId req) && js_truthy (bodyBucketName req))
    eqn:Hfields; [|by rewrite createBucket_refuses].
  apply andb_prop in Hfields as [Ha Hb].
  destruct (bodyAccessKeyId req) as [[|c accessKeyId]|] eqn:Ea; try done.
  destruct (bodyBucketName req) as [[|c' bucketName]|] eqn:Eb; try done.
  rewrite (createBucket_with_fields _ _ _ _ Ea ltac:(done) Eb ltac:(done)).
  destruct (apiKeys st !! String c accessKeyId) as [apiKey|] eqn:Hk; [|done].
  unfold NodeFs.mkdir.
  set (q := NodeFs.dropTrailingSlash _).
  destruct (disk st !! q) as [[d|]|] eqn:E; [done|..].
  all: assert (Step P D st (mkState (apiKeys st) (buckets st) (<[q := Dir]> (disk st))))
         as Hdir by (apply step_dir; congruence).
  all: destruct (bucketExists _ _ st) eqn:Hnew; [by apply rtc_once|].
  all: eapply rtc_l; [exact Hdir|].
  all: apply rtc_once,
         (step_bucket P D (mkState (apiKeys st) (buckets st) (<[q := Dir]> (disk st)))
            (String c' bucketName) (String c accessKeyId)); [exact Hnew|by eexists].
Qed.

(** Every request changes the stores by a sequence of steps. *)
Lemma handle_steps now route req st :
  admissible P D route req →
  rtc (Step P D) st (handle now route req st).2.
Proof.
  intros Hadm. unfold handle.
  destruct route as [random16 random32| |bucketName|bucketName objectKey
                     |bucketName objectKey|].
  - destruct (authenticateAdmin req); [|done]. unfold createAccessKey.
    destruct (apiKeys st !! NodeBuffer.toHex random16) eqn:Hk; [done|].
    by apply rtc_once, step_issue.
  - destruct (authenticateAdmin req); [|done]. apply createBucket_steps.
  - destruct (authenticateRequest now req st) as [r|root st1|e st1] eqn:Hauth;
      [done| |by rewrite <- (authenticateRequest_other now req st),
                 Hauth by (rewrite Hauth; congruence)].
    destruct (authenticateRequest_next _ _ _ _ _ Hauth)
      as (accessId & apiKey & q & Ha & Hk & -> & Hq & ->).
    rewrite Ha. cbn [default answered snd fst].
    eapply rtc_l; [by apply (step_dir P D st q)|].
    by apply postObject_steps.
  - destruct (authenticateRequest now req st) as [r|root st1|e st1] eqn:Hauth;
      [done| |by rewrite <- (authenticateRequest_other now req st),
                 Hauth by (rewrite Hauth; congruence)].
    destruct (authenticateRequest_next _ _ _ _ _ Hauth)
      as (accessId & apiKey & q & Ha & Hk & -> & Hq & ->).
    cbn [answered snd]. rewrite getObject_state.
    by apply rtc_once, (step_dir P D st q).
  - destruct (authenticateRequest now req st) as [r|root st1|e st1] eqn:Hauth;
      [done| |by rewrite <- (authenticateRequest_other now req st),
                 Hauth by (rewrite Hauth; congruence)].
    destruct (authenticateRequest_next _ _ _ _ _ Hauth)
      as (accessId & apiKey & q & Ha & Hk & -> & Hq & ->).
    rewrite Ha. cbn [default answered snd fst].
    eapply rtc_l; [by apply (step_dir P D st q)|].
    apply deleteObject_steps; [done|by eexists].
  - destruct (authenticateRequest now req st) as [r|root st1|e st1] eqn:Hauth;
      [done| |by rewrite <- (authenticateRequest_other now req st),
                 Hauth by (rewrite Hauth; congruence)].
    destruct (authenticateRequest_next _ _ _ _ _ Hauth)
      as (accessId & apiKey & q & Ha & Hk & -> & Hq & ->).
    cbn [answered snd listBuckets].
    by apply rtc_once, (step_dir P D st q).
Qed.

Lemma run_steps requests st :
  Forall (λ e : Z * Route * Request, admissible P D e.1.2 e.2) requests →
  rtc (Step P D) st (run requests st).
Proof.
  revert st. induction requests as [|[[now route] req] requests IH];
    intros st Hall; [done|].
  inversion Hall as [|? ? Hadm Hrest]; subst. cbn in Hadm.
  unfold run. cbn [fold_left]. etrans; [by apply (handle_steps now)|].
  by apply IH.
Qed.

Lemma steps_invariant (Q : State → Prop) :
  (∀ st st', Q st → Step P D st st' → Q st') →
  ∀ st st', rtc (Step P D) st st' → Q st → Q st'.
Proof. intros Hstep st st' Hrtc. induction Hrtc; eauto. Qed.

End Steps.

(** ** What every run of the server keeps *)

Section Invariants.

Context `{Crypto}.

Lemma admissible_any route req : admissible (λ _ _, True) (λ _, True) route req.
Proof. by destruct route. Qed.

Lemma run_any_steps requests st :
  rtc (Step (λ _ _, True) (λ _, True)) st (run requests st).
Proof.
  apply run_steps, Forall_forall. intros [[now route] req] _.
  apply admissible_any.
Qed.

Lemma step_keeps P D st st' : Step P D st st' → keeps st st'.
Proof.
  intros Hstep id k Hk.
  destruct Hstep as [q Hq|random16 secret plan _ Hfree|b a Hnew Howner
                     |a b key data apiKey fs' _ Ha _ _|a b key data apiKey _ _ Ha];
    cbn [apiKeys].
  - by exists k.
  - exists k. split; [|done]. rewrite lookup_insert_ne; [done|congruence].
  - by exists k.
  - destruct (decide (a = id)) as [->|Hne].
    + rewrite lookup_insert_eq. rewrite Hk in Ha. injection Ha as <-. by eexists.
    + exists k. by rewrite lookup_insert_ne.
  - destruct (decide (a = id)) as [->|Hne].
    + rewrite lookup_insert_eq. rewrite Hk in Ha. injection Ha as <-. by eexists.
    + exists k. by rewrite lookup_insert_ne.
Qed.

(** X18. No request removes a credential or changes its secret or its
    plan: whatever requests are served, a credential that is there stays
    there as it was issued; only its bytes-used moves. *)
Theorem credentials_are_permanent requests st accessKeyId apiKey :
  apiKeys st !! accessKeyId = Some apiKey →
  ∃ apiKey',
    apiKeys (run requests st) !! accessKeyId = Some apiKey'
    ∧ secretAccessKey apiKey' = secretAccessKey apiKey
    ∧ plan apiKey' = plan apiKey.
Proof.
  intros Hk.
  assert (keeps st (run requests st)) as Hkeeps.
  { apply (steps_invariant (λ _ _, True) (λ _, True) (keeps st))
      with (st := st); [|apply run_any_steps|].
    - intros st1 st2 H1 Hstep id k Hid.
      destruct (H1 id k Hid) as (k1 & Hk1 & E1).
      destruct (step_keeps _ _ _ _ Hstep id k1 Hk1) as (k2 & Hk2 & E2).
      exists k2. split; [done|]. congruence.
    - intros id k Hid. by exists k. }
  destruct (Hkeeps accessKeyId apiKey Hk) as (k' & Hk' & E).
  exists k'. split; [done|]. unfold issuedAs in E. by injection E.
Qed.

Lemma step_directoryOk P D st st' :
  directoryOk st → Step P D st st' → directoryOk st'.
Proof.
  intros [Hnodup Howners] Hstep.
  assert (∀ b, b ∈ buckets st → is_Some (apiKeys st' !! owner b)) as Hkept.
  { intros b Hb. destruct (Howners b Hb) as [k Hk].
    destruct (step_keeps _ _ _ _ Hstep _ _ Hk) as (k' & Hk' & _). by exists k'. }
  destruct Hstep as [q Hq|random16 secret plan _ Hfree|bn a Hnew Howner
                     |a b key data apiKey fs' _ Ha _ _|a b key data apiKey _ _ Ha];
    try (split; [exact Hnodup|exact Hkept]).
  split; cbn [buckets apiKeys] in *.
  - apply NoDup_app. split; [done|]. split; [|apply NoDup_singleton].
    intros b Hb ->%list_elem_of_singleton.
    apply bucketExists_elem in Hb. congruence.
  - intros b [Hb| ->%list_elem_of_singleton]%elem_of_app; [by apply Hkept|done].
Qed.

(** X19. In every run from the start of the server the bucket directory
    stays well formed: no (name, owner) row occurs twice, and the owner
    of every row has a credential. *)
Theorem bucket_directory_stays_well_formed requests :
  let st := run requests initial in
  NoDup (buckets st)
  ∧ ∀ b, b ∈ buckets st → is_Some (apiKeys st !! owner b).
Proof.
  apply (steps_invariant (λ _ _, True) (λ _, True) directoryOk)
    with (st := initial); [|apply run_any_steps|].
  - intros st st'. apply step_directoryOk.
  - split; [constructor|]. intros b Hb. by apply elem_of_nil in Hb.
Qed.

Lemma step_bucketExists P D st st' accessKeyId bucketName :
  bucketExists accessKeyId bucketName st = true → Step P D st st' →
  bucketExists accessKeyId bucketName st' = true.
Proof.
  intros Hb Hstep. destruct Hstep; try exact Hb.
  apply bucketExists_elem. cbn [buckets]. apply elem_of_app. left.
  by apply bucketExists_elem.
Qed.

(** X20. No request removes a bucket: once the bucket directory has the
    row (name, owner), it has it after whatever requests are served. *)
Theorem buckets_are_permanent requests st accessKeyId bucketName :
  bucketExists accessKeyId bucketName st = true →
  bucketExists accessKeyId bucketName (run requests st) = true.
Proof.
  intros Hb.
  apply (steps_invariant (λ _ _, True) (λ _, True)
           (λ st, bucketExists accessKeyId bucketName st = true))
    with (st := st); [|apply run_any_steps|done].
  intros st1 st2. apply step_bucketExists.
Qed.

Lemma step_withinLimits P D st st' :
  withinLimits st → Step P D st st' → withinLimits st'.
Proof.
  intros Hin Hstep id k limit.
  destruct Hstep as [q Hq|random16 secret plan _ Hfree|bn a Hnew Howner
                     |a b key data apiKey fs' _ Ha Hgt _|a b key data apiKey _ _ Ha];
    cbn [apiKeys]; try apply Hin.
  - destruct (decide (NodeBuffer.toHex random16 = id)) as [->|Hne].
    + rewrite lookup_insert_eq. intros [= <-]. cbn. unfold STORAGE_LIMITS.
      case_bool_decide; [|done]. intros [= <-]. done.
    + rewrite lookup_insert_ne by done. apply Hin.
  - destruct (decide (a = id)) as [->|Hne].
    + rewrite lookup_insert_eq. intros [= <-]. cbn. intros Hl.
      rewrite Hl in Hgt. cbn in Hgt. apply bool_decide_eq_false in Hgt. lia.
    + rewrite lookup_insert_ne by done. apply Hin.
  - destruct (decide (a = id)) as [->|Hne].
    + rewrite lookup_insert_eq. intros [= <-]. cbn. intros Hl.
      specialize (Hin _ _ _ Ha Hl). lia.
    + rewrite lookup_insert_ne by done. apply Hin.
Qed.

(** X21. Whatever requests are served from the start of the server, in
    whatever order and with whatever keys, the bytes-used of a
    credential on a plan with a limit never exceeds that limit. *)
Theorem bytes_used_stays_within_the_limit requests accessKeyId apiKey limit :
  apiKeys (run requests initial) !! accessKeyId = Some apiKey →
  STORAGE_LIMITS (plan apiKey) = Some limit →
  (storageUsed apiKey ≤ limit)%Z.
Proof.
  revert accessKeyId apiKey limit.
  apply (steps_invariant (λ _ _, True) (λ _, True) withinLimits)
    with (st := initial); [|apply run_any_steps|].
  - intros st st'. apply step_withinLimits.
  - intros id k limit Hk. unfold initial in Hk. cbn [apiKeys] in Hk.
    by rewrite lookup_empty in Hk.
Qed.

End Invariants.

(** ** Quota accounting on plain names *)

Section Accounting.

Context `{Crypto}.

Lemma weight_nonneg id p n : (0 ≤ weight id p n)%Z.
Proof. destruct n as [data|]; cbn; [|done]. destruct (under id p); lia. Qed.

Lemma storedBytes_insert id p n (fs : gmap string node) :
  fs !! p = None →
  storedBytes id (<[p := n]> fs) = (storedBytes id fs + weight id p n)%Z.
Proof.
  intros Hp. unfold storedBytes. rewrite map_fold_insert_L; [|intros|done].
  - destruct n as [data|]; cbn; [destruct (under id p)|]; lia.
  - repeat case_match; lia.
Qed.

Lemma storedBytes_delete id p n (fs : gmap string node) :
  fs !! p = Some n →
  storedBytes id fs = (storedBytes id (delete p fs) + weight id p n)%Z.
Proof.
  intros Hp. rewrite <- (insert_delete_id fs p n Hp) at 1.
  apply storedBytes_insert, lookup_delete_eq.
Qed.

Lemma storedBytes_overwrite id p n (fs : gmap string node) :
  storedBytes id (<[p := n]> fs)
  = (storedBytes id (delete p fs) + weight id p n)%Z.
Proof.
  rewrite <- insert_delete_eq. apply storedBytes_insert, lookup_delete_eq.
Qed.

Lemma storedBytes_nonneg id (fs : gmap string node) : (0 ≤ storedBytes id fs)%Z.
Proof.
  induction fs as [|p n fs Hp IH] using map_ind; [done|].
  rewrite storedBytes_insert by done. pose proof (weight_nonneg id p n). lia.
Qed.

Lemma storedBytes_delete_le id p (fs : gmap string node) :
  (storedBytes id (delete p fs) ≤ storedBytes id fs)%Z.
Proof.
  destruct (fs !! p) as [n|] eqn:Hp; [|by rewrite delete_id].
  rewrite (storedBytes_delete id p n fs Hp).
  pose proof (weight_nonneg id p n). lia.
Qed.

Lemma storedBytes_nothing id (fs : gmap string node) :
  (∀ p data, fs !! p = Some (File data) → under id p = false) →
  storedBytes id fs = 0%Z.
Proof.
  induction fs as [|p n fs Hp IH] using map_ind; [done|]. intros Hnone.
  rewrite storedBytes_insert by done. rewrite IH.
  - destruct n as [data|]; [|done]. cbn.
    by rewrite (Hnone p data) by apply lookup_insert_eq.
  - intros q data Hq. apply (Hnone q data).
    rewrite lookup_insert_ne; [done|congruence].
Qed.

Lemma prefix_split a p : String.prefix a p = true → ∃ r, p = a +:+ r.
Proof.
  revert p. induction a as [|c a IH]; intros p; [by exists p|].
  destruct p as [|c' p]; [done|]. cbn [String.prefix].
  destruct (ascii_dec c c') as [<-|]; [|done].
  intros [r ->]%IH. by exists r.
Qed.

(** A path lies under the root of at most one plain access id. *)
Lemma under_one_root id id' p :
  NodePath.plain id → NodePath.plain id' →
  under id p = true → under id' p = true → id = id'.
Proof.
  intros Hid Hid' Hu Hu'. unfold under in Hu.
  rewrite (PlainNames.userRoot_plain id Hid) in Hu.
  apply prefix_split in Hu as [rest ->].
  rewrite !NodePathFacts.append_assoc in Hu'.
  symmetry. by apply (PlainNames.under_plain id' id rest).
Qed.

Lemma under_objectPath id b k :
  NodePath.plain id → NodePath.plain b → NodePath.plain k →
  under id (objectPath id b k) = true.
Proof.
  intros Hid Hb Hk. rewrite (PlainNames.objectPath_plain id b k Hid Hb Hk).
  by apply PlainNames.under_plain.
Qed.

Lemma step_accounted st st' :
  accounted st →
  Step (λ bucketName key, NodePath.plain bucketName ∧ NodePath.plain key)
       (λ random16, random16 ≠ []) st st' →
  accounted st'.
Proof.
  intros (Hplain & Howned & Hle) Hstep.
  destruct Hstep as [q Hq|random16 secret plan Hd Hfree|bn a Hnew Howner
                     |a b key data apiKey fs' [Hb Hkey] Ha Hgt Hfs
                     |a b key data apiKey [Hb Hkey] Hfile Ha];
    unfold accounted; cbn [apiKeys disk buckets].
  - (* a directory is made *)
    split; [exact Hplain|]. split.
    + intros p d. destruct (decide (q = p)) as [->|Hne].
      * by rewrite lookup_insert_eq.
      * rewrite lookup_insert_ne by done. apply Howned.
    + intros id k Hk. rewrite storedBytes_insert_dir by exact Hq. by apply Hle.
  - (* a credential is issued *)
    set (new := NodeBuffer.toHex random16) in *.
    assert (NodePath.plain new) as Hnew by by apply toHex_plain.
    split; [|split].
    + intros id [k Hk]. destruct (decide (new = id)) as [<-|Hne]; [done|].
      rewrite lookup_insert_ne in Hk by done. by apply Hplain.
    + intros p d Hp. destruct (Howned p d Hp) as (id & [k Hk] & Hu).
      exists id. split; [|done]. exists k.
      rewrite lookup_insert_ne; [done|congruence].
    + intros id k. destruct (decide (new = id)) as [<-|Hne].
      * rewrite lookup_insert_eq. intros [= <-]. cbn [storageUsed].
        rewrite storedBytes_nothing; [done|].
        intros p d Hp. destruct (Howned p d Hp) as (id & Hid & Hu).
        destruct (under new p) eqn:Hu'; [|done].
        assert (new = id) as E
          by (apply (under_one_root new id p); auto).
        rewrite <- E in Hid. rewrite Hfree in Hid. by destruct Hid.
      * rewrite lookup_insert_ne by done. apply Hle.
  - (* a bucket is registered *)
    done.
  - (* an upload is charged, and written or not *)
    assert (NodePath.plain a) as Hpa by (apply Hplain; by eexists).
    assert (∀ id, is_Some (apiKeys st !! id) →
                  is_Some (<[a := set_storageUsed
                                    (storageUsed apiKey + Z.of_nat (length data))
                                    apiKey]> (apiKeys st) !! id)) as Hkept.
    { intros id [k Hk]. destruct (decide (a = id)) as [->|Hne].
      - rewrite lookup_insert_eq. by eexists.
      - rewrite lookup_insert_ne by done. by eexists. }
    split; [|split].
    + intros id [k Hk]. destruct (decide (a = id)) as [<-|Hne]; [done|].
      rewrite lookup_insert_ne in Hk by done. apply Hplain. by eexists.
    + intros p d Hp. destruct Hfs as [->| ->].
      * destruct (Howned p d Hp) as (id & Hid & Hu). exists id. auto.
      * destruct (decide (objectPath a b key = p)) as [<-|Hne].
        -- exists a. split; [apply Hkept; by eexists|].
           by apply under_objectPath.
        -- rewrite lookup_insert_ne in Hp by done.
           destruct (Howned p d Hp) as (id & Hid & Hu). exists id. auto.
    + intros id k Hk.
      assert (storedBytes id fs'
              ≤ storedBytes id (disk st)
                + if decide (a = id) then Z.of_nat (length data) else 0)%Z
        as Hgrow.
      { destruct Hfs as [->| ->]; [destruct (decide (a = id)); lia|].
        rewrite storedBytes_overwrite.
        pose proof (storedBytes_delete_le id (objectPath a b key) (disk st)).
        cbn [weight]. destruct (under id (objectPath a b key)) eqn:Hu.
        - assert (is_Some (apiKeys st !! id)) as Hid.
          { destruct (decide (a = id)) as [->|Hne]; [by eexists|].
            rewrite lookup_insert_ne in Hk by done. by eexists. }
          assert (id = a) as ->.
          { apply (under_one_root id a (objectPath a b key)); auto.
            by apply under_objectPath. }
          rewrite decide_True by done. lia.
        - destruct (decide (a = id)); lia. }
      destruct (decide (a = id)) as [->|Hne].
      * rewrite lookup_insert_eq in Hk. injection Hk as <-. cbn [storageUsed set_storageUsed].
        specialize (Hle id apiKey Ha). cbn. lia.
      * rewrite lookup_insert_ne in Hk by done. specialize (Hle id k Hk). lia.
  - (* an object is deleted and released *)
    assert (NodePath.plain a) as Hpa by (apply Hplain; by eexists).
    split; [|split].
    + intros id [k Hk]. destruct (decide (a = id)) as [<-|Hne]; [done|].
      rewrite lookup_insert_ne in Hk by done. apply Hplain. by eexists.
    + intros p d Hp. apply lookup_delete_Some in Hp as [_ Hp].
      destruct (Howned p d Hp) as (id & [k Hk] & Hu). exists id. split; [|done].
      destruct (decide (a = id)) as [->|Hne].
      * rewrite lookup_insert_eq. by eexists.
      * rewrite lookup_insert_ne by done. by eexists.
    + intros id k Hk.
      pose proof (storedBytes_delete id _ _ _ Hfile) as Hdel. cbn [weight] in Hdel.
      destruct (decide (a = id)) as [->|Hne].
      * rewrite lookup_insert_eq in Hk. injection Hk as <-.
        rewrite under_objectPath in Hdel by done.
        specialize (Hle id apiKey Ha). cbn. lia.
      * rewrite lookup_insert_ne in Hk by done. specialize (Hle id k Hk).
        destruct (under id (objectPath a b key)) eqn:Hu; [|lia].
        destruct Hne. symmetry.
        apply (under_one_root id a (objectPath a b key));
          auto using under_objectPath.
Qed.

Lemma initial_accounted : accounted initial.
Proof.
  split; [|split].
  - intros id Hk. unfold initial in Hk. cbn [apiKeys] in Hk.
    rewrite lookup_empty in Hk. by destruct Hk.
  - intros p d Hp. unfold initial in Hp. cbn [disk] in Hp.
    apply lookup_singleton_Some in Hp as [_ Hp]. discriminate Hp.
  - intros id k Hk. unfold initial in Hk. cbn [apiKeys] in Hk.
    rewrite lookup_empty in Hk. discriminate Hk.
Qed.

(** X22. Runs in which every upload carries a multipart file or raw
    bytes (the payloads a [Request] has; no body decoded by
    [bodyParser.json] reaches the upload route) and every bucket name
    and object key is one ordinary path segment: not empty, no slash,
    neither of the two dot segments.  In such a run the accounting is
    sound: the files stored under a credential's root never hold more
    bytes than its bytes-used, and so never more than the limit of its
    plan. *)
Theorem plain_names_keep_the_quota_sound requests accessKeyId apiKey :
  Forall plainRequest requests →
  apiKeys (run requests initial) !! accessKeyId = Some apiKey →
  (0 ≤ storedBytes accessKeyId (disk (run requests initial)) ≤ storageUsed apiKey)%Z
  ∧ ∀ limit, STORAGE_LIMITS (plan apiKey) = Some limit →
      (storedBytes accessKeyId (disk (run requests initial)) ≤ limit)%Z.
Proof.
  intros Hall Hk.
  pose proof (run_steps _ _ requests initial Hall) as Hrun.
  assert (accounted (run requests initial)) as (_ & _ & Hle).
  { eapply (steps_invariant _ _ accounted);
      [apply step_accounted|exact Hrun|apply initial_accounted]. }
  assert (withinLimits (run requests initial)) as Hin.
  { eapply (steps_invariant _ _ withinLimits);
      [intros st st'; apply step_withinLimits|exact Hrun|].
    intros id k limit Hid. unfold initial in Hid. cbn [apiKeys] in Hid.
    by rewrite lookup_empty in Hid. }
  specialize (Hle _ _ Hk).
  pose proof (storedBytes_nonneg accessKeyId (disk (run requests initial))).
  split; [lia|]. intros limit Hl. specialize (Hin _ _ _ Hk Hl). lia.
Qed.

End Accounting.

(** ** The routes that read *)

Section Reads.

Context `{Crypto}.

Lemma stored_dir p q st :
  (∀ d, disk st !! q ≠ Some (File d)) →
  stored p (mkState (apiKeys st) (buckets st) (<[q := Dir]> (disk st)))
  = stored p st.
Proof.
  intros Hq. unfold stored, NodeFs.resolve. cbn [disk].
  destruct (NodePath.endsWithSlash p).
  - destruct (decide (q = NodeFs.dropTrailingSlash p)) as [<-|Hne].
    + rewrite lookup_insert_eq. destruct (disk st !! q) as [[d|]|]; done.
    + by rewrite lookup_insert_ne.
  - destruct (decide (q = p)) as [<-|Hne].
    + rewrite lookup_insert_eq.
      destruct (disk st !! q) as [[d|]|] eqn:E; [by destruct (Hq d)|done..].
    + by rewrite lookup_insert_ne.
Qed.

Lemma authenticateRequest_stores now req st :
  let st' := stateAfter (authenticateRequest now req st) st in
  apiKeys st' = apiKeys st
  ∧ buckets st' = buckets st
  ∧ ∀ p, stored p st' = stored p st.
Proof.
  destruct (authenticateRequest now req st) as [r|root st1|e st1] eqn:E.
  - by rewrite <- (authenticateRequest_other now req st), E by (rewrite E; done).
  - apply authenticateRequest_next in E as (a & k & q & _ & _ & _ & Hq & ->).
    cbn [stateAfter apiKeys buckets]. repeat split. intros p. by apply stored_dir.
  - by rewrite <- (authenticateRequest_other now req st), E by (rewrite E; done).
Qed.

(** X23. The two reading routes, [GET] of an object and [GET /buckets],
    change nothing that a client can observe, whatever they answer: every
    credential with its bytes-used, the bucket directory and the content
    stored under every path are after the request what they were before. *)
Theorem reading_changes_nothing now route req st :
  readRoute route = true →
  let st' := (handle now route req st).2 in
  apiKeys st' = apiKeys st
  ∧ buckets st' = buckets st
  ∧ ∀ p, stored p st' = stored p st.
Proof.
  intros Hread.
  pose proof (authenticateRequest_stores now req st) as Hauth.
  destruct route as [random16 random32| |bucketName|bucketName objectKey
                     |bucketName objectKey|]; try discriminate Hread;
    unfold handle;
    destruct (authenticateRequest now req st) as [r|root st1|e st1];
    cbn [stateAfter] in Hauth; try exact Hauth.
  - unfold answered. cbn [snd]. by rewrite getObject_state.
Qed.

End Reads.

(** ** One owner's requests and another owner's objects *)

Section Isolation.

Context `{Crypto}.

Lemma dropTrailingSlash_id p :
  NodePath.endsWithSlash p = false → NodeFs.dropTrailingSlash p = p.
Proof.
  induction p as [|c p IH]; [done|]. cbn [NodePath.endsWithSlash NodeFs.dropTrailingSlash].
  destruct p as [|c' p]; [by intros ->|]. intros Hp. by rewrite IH.
Qed.

Lemma prefix_slash_noSlash id a :
  NodePath.noSlash a = true → String.prefix (id +:+ "/") a = false.
Proof.
  revert a. induction id as [|x id IH]; intros [|c a] Ha; try done.
  - change ("" +:+ "/") with "/". cbn [String.prefix].
    destruct (ascii_dec "/" c) as [<-|]; [done|done].
  - rewrite NodePathFacts.app_String. cbn [String.prefix].
    destruct (ascii_dec x c) as [_|]; [|done]. apply IH.
    cbn [NodePath.noSlash] in Ha. by apply andb_prop in Ha as [_ ?].
Qed.

(** The root of a plain owner is under the root of no plain owner. *)
Lemma root_not_under id a :
  NodePath.plain id → NodePath.plain a →
  NodeFs.dropTrailingSlash (userRoot a) = "storage/" +:+ a
  ∧ under id ("storage/" +:+ a) = false.
Proof.
  intros Hid Ha. split.
  - rewrite (PlainNames.userRoot_plain a Ha). apply dropTrailingSlash_id.
    rewrite NodePathFacts.endsWithSlash_app by (by apply PlainNames.plain_not_empty).
    apply NodePathFacts.endsWithSlash_noSlash, Ha.
  - unfold under. rewrite (PlainNames.userRoot_plain id Hid).
    rewrite NodePathFacts.append_assoc, PlainNames.prefix_app.
    apply prefix_slash_noSlash, Ha.
Qed.

Lemma object_not_under id a b key :
  NodePath.plain id → NodePath.plain a → NodePath.plain b → NodePath.plain key →
  id ≠ a → under id (objectPath a b key) = false.
Proof.
  intros Hid Ha Hb Hkey Hne.
  rewrite (PlainNames.objectPath_plain a b key Ha Hb Hkey).
  destruct (under id _) eqn:E; [|done].
  by apply (PlainNames.under_plain id a) in E.
Qed.

Lemma storedBytes_elsewhere id o (fs : gmap string node) :
  under id o = false →
  storedBytes id (delete o fs) = storedBytes id fs
  ∧ ∀ n, storedBytes id (<[o := n]> fs) = storedBytes id fs.
Proof.
  intros Ho.
  assert (∀ n, weight id o n = 0%Z) as Hw
    by (intros [d|]; cbn; [by rewrite Ho|done]).
  assert (storedBytes id (delete o fs) = storedBytes id fs) as Hdel.
  { destruct (fs !! o) as [m|] eqn:E; [|by rewrite delete_id].
    rewrite (storedBytes_delete id o m fs E), Hw. lia. }
  split; [done|]. intros n. rewrite storedBytes_overwrite, Hw, Hdel. lia.
Qed.

Lemma untouched_refl id st : untouched id st st.
Proof. by repeat split. Qed.

Lemma untouched_trans id st1 st2 st3 :
  untouched id st1 st2 → untouched id st2 st3 → untouched id st1 st3.
Proof.
  intros (Hk & Hd & Hb) (Hk' & Hd' & Hb'). repeat split.
  - congruence.
  - intros p Hp. rewrite Hd' by done. by apply Hd.
  - congruence.
Qed.

(** A change of the credential of [a] and of the disk at [o] alone. *)
Lemma untouched_change id a o st ks' fs' :
  id ≠ a → under id o = false →
  ks' = apiKeys st ∨ (∃ k, ks' = <[a := k]> (apiKeys st)) →
  fs' = disk st ∨ (∃ n, fs' = <[o := n]> (disk st)) ∨ fs' = delete o (disk st) →
  untouched id st (mkState ks' (buckets st) fs').
Proof.
  intros Hne Ho Hks Hfs.
  destruct (storedBytes_elsewhere id o (disk st) Ho) as [Hdel Hins].
  unfold untouched. cbn [apiKeys disk]. split; [|split].
  - destruct Hks as [->|[k ->]]; [done|]. by rewrite lookup_insert_ne.
  - intros p Hp. assert (o ≠ p) by congruence.
    destruct Hfs as [->|[[n ->]| ->]]; [done|..].
    + by rewrite lookup_insert_ne.
    + by rewrite lookup_delete_ne.
  - destruct Hfs as [->|[[n ->]| ->]]; [done|..]; [apply Hins|apply Hdel].
Qed.

Lemma authenticateRequest_root now req st root st1 :
  authenticateRequest now req st = Next root st1 →
  ∃ accessId,
    xAccessID req = Some accessId
    ∧ root = userRoot accessId
    ∧ st1 = mkState (apiKeys st) (buckets st)
              (<[NodeFs.dropTrailingSlash (userRoot accessId) := Dir]> (disk st)).
Proof.
  unfold authenticateRequest.
  destruct (negb (js_truthy (xAccessID req)) || _ || _); [done|].
  destruct (xAccessID req) as [accessId|]; [|done].
  destruct (xSignature req) as [signature|]; [|done].
  destruct (xTimestamp req) as [timestamp|]; [|done].
  destruct (apiKeys st !! accessId) as [apiKey|] eqn:Hk; [|done].
  destruct (JsNumber.lt _ _); [done|]. case_bool_decide; [done|].
  unfold NodeFs.mkdir.
  destruct (disk st !! _) as [[d|]|] eqn:E; [done|..]; intros [= <- <-];
    by exists accessId.
Qed.

(** What the upload handler leaves behind. *)
Lemma postObject_outcome a b req st :
  let st' := (postObject a (userRoot a) b req st).2 in
  st' = st
  ∨ ∃ key data k fs',
      upload req = Some (key, data)
      ∧ (fs' = disk st ∨ fs' = <[objectPath a b key := File data]> (disk st))
      ∧ st' = mkState (<[a := k]> (apiKeys st)) (buckets st) fs'.
Proof.
  destruct (bucketExists a b st) eqn:Hb;
    [|left; unfold postObject; by rewrite Hb].
  destruct (upload req) as [[key data]|] eqn:Hu.
  - rewrite (postObject_upload _ _ _ _ _ _ _ Hb Hu), uploadPath_objectPath.
    unfold respondSaved, saveObject, async_bind, checkStorageLimit, updateApiKey.
    destruct (apiKeys st !! a) as [apiKey|] eqn:Hk; [|by left].
    destruct (js_gt _ _) eqn:Hgt; [by left|].
    unfold on_disk, from_disk, async_ret. cbn [disk set_apiKeys apiKeys buckets].
    right. exists key, data.
    destruct (NodeFs.writeFile _ data (disk st)) as [fs'|e] eqn:Hw.
    + cbn [disk set_disk apiKeys buckets].
      rewrite (readFile_written _ _ _ _ Hw). cbn [snd].
      eexists _, fs'. split; [done|]. split; [|done].
      right. by apply writeFile_inv in Hw as (_ & _ & ->).
    + eexists _, (disk st). split; [done|]. split; [by left|].
      by case_bool_decide.
  - left. unfold postObject, upload in *. rewrite Hb. cbn [negb].
    destruct (file req); [done|]. destruct (body req); [|done].
    destruct (xFileName req) as [fileName|]; [|done].
    by destruct (js_truthy (Some fileName)).
Qed.

(** What the delete handler leaves behind. *)
Lemma deleteObject_outcome a b key st :
  let st' := (deleteObject a (userRoot a) b key st).2 in
  ∃ ks' fs',
    st' = mkState ks' (buckets st) fs'
    ∧ (ks' = apiKeys st ∨ ∃ k, ks' = <[a := k]> (apiKeys st))
    ∧ (fs' = disk st ∨ fs' = delete (objectPath a b key) (disk st)).
Proof.
  destruct (bucketExists a b st) eqn:Hb.
  - rewrite (deleteObject_cases _ _ _ _ Hb).
    destruct (stored _ st) as [data|]; [|destruct st; by eauto 8].
    destruct (apiKeys st !! a) as [apiKey|]; cbn [snd]; eauto 10.
  - unfold deleteObject. rewrite Hb. destruct st; cbn; eauto 8.
Qed.

(** X24. Owners with plain names are kept apart.  When the access id of
    a request, the bucket name and the object key it names are each one
    ordinary path segment, serving it on an object route leaves every
    other owner with a plain access id as it was: its credential with
    its bytes-used, whatever the disk has under its root, and the bytes
    stored there. *)
Theorem plain_names_keep_owners_apart now route req st a id :
  adminRoute route = false →
  admissible (λ bucketName key, NodePath.plain bucketName ∧ NodePath.plain key)
             (λ _, True) route req →
  xAccessID req = Some a → NodePath.plain a →
  NodePath.plain id → id ≠ a →
  let st' := (handle now route req st).2 in
  apiKeys st' !! id = apiKeys st !! id
  ∧ (∀ p, under id p = true → disk st' !! p = disk st !! p)
  ∧ storedBytes id (disk st') = storedBytes id (disk st).
Proof.
  intros Hroute Hadm Ha Hpa Hid Hne.
  change (untouched id st (handle now route req st).2).
  destruct (root_not_under id a Hid Hpa) as [Hq Hroot].
  assert ((handle now route req st).2
          = match authenticateRequest now req st with
            | Responded _ => st
            | Rejection _ st1 => st1
            | Next root st1 =>
                match route with
                | PostObject b => (postObject a root b req st1).2
                | GetObject b key => (getObject a root b key st1).2
                | DeleteObject b key => (deleteObject a root b key st1).2
                | _ => st1
                end
            end) as ->.
  { destruct route; try discriminate Hroute; unfold handle; rewrite Ha;
      cbn [default]; by destruct (authenticateRequest now req st). }
  destruct (authenticateRequest now req st) as [r|root st1|e st1] eqn:E.
  - apply untouched_refl.
  - apply authenticateRequest_root in E as (a' & Ha' & -> & ->).
    rewrite Ha in Ha'. injection Ha' as <-. rewrite Hq.
    set (st1 := mkState _ _ _).
    assert (untouched id st st1) as Hst1
      by (apply (untouched_change id a ("storage/" +:+ a)); eauto).
    destruct route as [random16 random32| |b|b key|b key|];
      try discriminate Hroute.
    + destruct (postObject_outcome a b req st1)
        as [->|(key & data & k & fs' & Hu & Hfs & ->)]; [done|].
      apply (untouched_trans _ _ _ _ Hst1).
      destruct (Hadm key data Hu) as [Hb Hkey].
      apply (untouched_change id a (objectPath a b key)); eauto.
      * by apply object_not_under.
      * destruct Hfs as [->| ->]; eauto.
    + by rewrite getObject_state.
    + destruct Hadm as [Hb Hkey].
      destruct (deleteObject_outcome a b key st1) as (ks' & fs' & -> & Hks & Hfs).
      apply (untouched_trans _ _ _ _ Hst1).
      apply (untouched_change id a (objectPath a b key)); auto.
      * by apply object_not_under.
      * destruct Hfs as [->| ->]; auto.
    + done.
  - rewrite <- (authenticateRequest_other now req st); rewrite E;
      [apply untouched_refl|done].
Qed.

End Isolation.

(** ** Where the file system and the column range come in

    A handler that is to succeed needs its file system calls and its
    update of [storageUsed] to succeed.  What they need is stated as
    hypotheses: names that are plain, the directories that have to be
    there, no regular file where a directory is needed, and a counter
    that fits the column. *)

Section Cooperation.

Context `{Crypto}.

Lemma userRoot_fixed a :
  NodePath.plain a → NodeFs.dropTrailingSlash (userRoot a) = userRoot a.
Proof.
  intros Ha. destruct (root_not_under a a Ha Ha) as [E _].
  by rewrite E, (PlainNames.userRoot_plain a Ha).
Qed.




(** The authenticator on a request that passes its four checks, when
    the root of its owner can be ensured. *)
Lemma authenticateRequest_granted
    now req st accessId signature timestamp apiKey :
  xAccessID req = Some accessId → NodePath.plain accessId →
  xSignature req = Some signature → signature ≠ "" →
  xTimestamp req = Some timestamp → timestamp ≠ "" →
  apiKeys st !! accessId = Some apiKey →
  JsNumber.lt (JsNumber.parseInt timestamp) (now - 15 * 60 * 1000) = false →
  signature = hmac_sha256_hex (secretAccessKey apiKey)
                (method req +:+ originalUrl req +:+ timestamp) →
  (∀ d, disk st !! userRoot accessId ≠ Some (File d)) →
  authenticateRequest now req st
  = Next (userRoot accessId) (set_disk (insert (userRoot accessId) Dir) st).
Proof.
  intros Ha Hpa Hs Hs' Ht Ht' Hk Hfresh Hsig Hroot.
  rewrite (authenticateRequest_passes now req st accessId signature
             timestamp apiKey Ha (PlainNames.plain_not_empty _ Hpa)
             Hs Hs' Ht Ht' Hk Hfresh Hsig).
  unfold NodeFs.mkdir. rewrite (userRoot_fixed _ Hpa).
  destruct (disk st !! userRoot accessId) as [[d|]|] eqn:E;
    [by destruct (Hroot d)|done..].
Qed.

Lemma run_keeps requests st : keeps st (run requests st).
Proof.
  apply (steps_invariant (λ _ _, True) (λ _, True) (keeps st))
    with (st := st); [|apply run_any_steps|].
  - intros st1 st2 H1 Hstep id k Hid.
    destruct (H1 id k Hid) as (k1 & Hk1 & E1).
    destruct (step_keeps _ _ _ _ Hstep id k1 Hk1) as (k2 & Hk2 & E2).
    exists k2. split; [done|]. congruence.
  - intros id k Hid. by exists k.
Qed.


(** C10. A request whose timestamp header is present but which
    [parseInt] turns into NaN is never answered [RequestExpired],
    whatever the server's clock and the stores.  Signed over that
    timestamp with the secret of its credential, it is passed on as
    authenticated at every clock value, bound to the root of its owner,
    provided that root can be ensured: the access id is plain, the
    storage root is a directory, and no regular file sits at the root of
    the owner. *)
Theorem unparseable_timestamp_skips_freshness
    now req st accessId signature timestamp apiKey :
  xTimestamp req = Some timestamp →
  JsNumber.parseInt timestamp = None →
  (∀ now' st', authenticateRequest now' req st' ≠ Responded RequestExpired)
  ∧ (xAccessID req = Some accessId → NodePath.plain accessId →
     xSignature req = Some signature → signature ≠ "" →
     timestamp ≠ "" →
     apiKeys st !! accessId = Some apiKey →
     signature = hmac_sha256_hex (secretAccessKey apiKey)
                   (method req +:+ originalUrl req +:+ timestamp) →
     disk st !! STORAGE_ROOT = Some Dir →
     (∀ d, disk st !! userRoot accessId ≠ Some (File d)) →
     authenticateRequest now req st
     = Next (userRoot accessId)
         (set_disk (insert (userRoot accessId) Dir) st)).
Proof.
  intros Ht Hnan. split.
  - intros now' st'. unfold authenticateRequest. rewrite Ht, Hnan.
    destruct (negb _ || _ || _); [done|].
    destruct (xAccessID req) as [a|]; [|done].
    destruct (xSignature req) as [s|]; [|done].
    destruct (apiKeys st' !! a) as [k|]; [|done].
    cbn [JsNumber.lt]. case_bool_decide; [done|].
    by destruct (NodeFs.mkdir _ _).
  - intros Ha Hpa Hs Hs' Ht' Hk Hsig _ Hroot.
    apply (authenticateRequest_granted now req st accessId signature
             timestamp apiKey); try done.
    by rewrite Hnan.
Qed.


(** X12. [POST /admin/create-access-key] with a draw that is not taken
    yet answers with the hex of the first draw as access id, the base64
    of the second as secret, and the plan of the body or "free".  The new
    credential has used 0 bytes; no other credential, no bucket and no
    file changes.  From then on, whatever requests are served in
    between, a request of that access id, signed with that secret over a
    timestamp that is not stale, is passed on by [authenticateRequest],
    bound to the root [storage/<access id>], provided the storage root
    is a directory and no regular file sits at that root. *)
Theorem issued_credential_authenticates now random16 random32 req st :
  xAdminAPIKey req = Some ADMIN_API_KEY →
  random16 ≠ [] →
  apiKeys st !! NodeBuffer.toHex random16 = None →
  let accessKeyId := NodeBuffer.toHex random16 in
  let secret := NodeBuffer.toBase64 random32 in
  let plan := default "free" (bodyPlan req) in
  ∃ st1,
    handle now (CreateAccessKey random16 random32) req st
    = (Answer (mkResponse 200 (JsonAccessKey accessKeyId secret plan)), st1)
    ∧ apiKeys st1 = <[accessKeyId := mkApiKey secret plan 0]> (apiKeys st)
    ∧ buckets st1 = buckets st ∧ disk st1 = disk st
    ∧ ∀ requests later sreq timestamp signature,
        let st2 := run requests st1 in
        xAccessID sreq = Some accessKeyId →
        xTimestamp sreq = Some timestamp → timestamp ≠ "" →
        JsNumber.lt (JsNumber.parseInt timestamp) (later - 15 * 60 * 1000) = false →
        xSignature sreq = Some signature → signature ≠ "" →
        signature = hmac_sha256_hex secret
                      (method sreq +:+ originalUrl sreq +:+ timestamp) →
        disk st2 !! STORAGE_ROOT = Some Dir →
        (∀ d, disk st2 !! ("storage/" +:+ accessKeyId) ≠ Some (File d)) →
        authenticateRequest later sreq st2
        = Next ("storage/" +:+ accessKeyId)
            (set_disk (insert ("storage/" +:+ accessKeyId) Dir) st2).
Proof.
  intros Hadmin Hdraw Hfree accessKeyId secret plan.
  pose proof (toHex_plain random16 Hdraw) as Hplain. fold accessKeyId in Hplain.
  unfold handle, authenticateAdmin, createAccessKey.
  rewrite bool_decide_eq_true_2 by done. rewrite Hfree.
  eexists. split; [reflexivity|]. do 3 (split; [done|]).
  intros requests later sreq timestamp signature
    Ha Ht Ht' Hfresh Hs Hs' Hsig _ Hroot.
  set (st2 := run requests _) in *.
  destruct (run_keeps requests
              (set_apiKeys (insert accessKeyId (mkApiKey secret plan 0)) st)
              accessKeyId (mkApiKey secret plan 0))
    as (k' & Hk' & Ek'); [apply lookup_insert_eq|].
  injection Ek' as Esecret _.
  rewrite <- (PlainNames.userRoot_plain accessKeyId Hplain) in *.
  apply (authenticateRequest_granted later sreq st2 accessKeyId signature
           timestamp k'); try done.
  by rewrite Esecret.
Qed.


End Cooperation.

(** ** The further properties on sample inputs *)

Lemma request_without_header_is_turned_away_witness :
  handle (H := Sample.crypto) Sample.now ListBuckets Cases.bare initial
  = (Answer MissingCredentials, initial).
Proof.
  apply (request_without_header_is_turned_away (H := Sample.crypto));
    reflexivity.
Defined.

Lemma unknown_access_id_is_turned_away_witness :
  handle (H := Sample.crypto) Sample.now ListBuckets
    (Cases.listing (H := Sample.crypto)) initial
  = (Answer UnknownIdentity, initial).
Proof.
  apply (unknown_access_id_is_turned_away (H := Sample.crypto)) with
    (accessId := Sample.idA) (timestamp := Sample.timestamp)
    (signature := hmac_sha256_hex (Crypto := Sample.crypto) Sample.secretA
                    ("GET" +:+ "/buckets" +:+ Sample.timestamp));
    vm_compute; first [reflexivity|discriminate].
Defined.

Lemma freshness_window_witness :
  authenticateRequest (H := Sample.crypto) Cases.late
    (Cases.listing (H := Sample.crypto)) (Sample.issued (H := Sample.crypto))
  = Responded RequestExpired
  ↔ (1700000000000 < Cases.late - 900000)%Z.
Proof.
  apply (freshness_window (H := Sample.crypto)) with
    (accessId := Sample.idA) (timestamp := Sample.timestamp)
    (signature := hmac_sha256_hex (Crypto := Sample.crypto) Sample.secretA
                    ("GET" +:+ "/buckets" +:+ Sample.timestamp))
    (apiKey := Cases.keyA);
    vm_compute; first [reflexivity|discriminate].
Defined.

Lemma wrong_signature_is_turned_away_witness :
  handle (H := Sample.crypto) Sample.now ListBuckets Cases.forged
    (Sample.issued (H := Sample.crypto))
  = (Answer InvalidSignature, Sample.issued (H := Sample.crypto)).
Proof.
  apply (wrong_signature_is_turned_away (H := Sample.crypto)) with
    (accessId := Sample.idA) (timestamp := Sample.timestamp)
    (signature := "forged") (apiKey := Cases.keyA);
    vm_compute; first [reflexivity|discriminate].
Defined.

Lemma authenticated_request_is_genuine_witness :
  let req := Cases.listing (H := Sample.crypto) in
  let st := Sample.issued (H := Sample.crypto) in
  ∃ accessId timestamp apiKey,
    xAccessID req = Some accessId ∧ accessId ≠ ""
    ∧ xTimestamp req = Some timestamp
    ∧ apiKeys st !! accessId = Some apiKey
    ∧ xSignature req
      = Some (hmac_sha256_hex (Crypto := Sample.crypto) (secretAccessKey apiKey)
                (method req +:+ originalUrl req +:+ timestamp))
    ∧ JsNumber.lt (JsNumber.parseInt timestamp) (Sample.now - 15 * 60 * 1000) = false
    ∧ userRoot Sample.idA = userRoot accessId
    ∧ apiKeys (stateAfter (authenticateRequest (H := Sample.crypto) Sample.now req st) st)
      = apiKeys st
    ∧ buckets (stateAfter (authenticateRequest (H := Sample.crypto) Sample.now req st) st)
      = buckets st.
Proof.
  intros req st.
  apply (authenticated_request_is_genuine (H := Sample.crypto) Sample.now req st).
  vm_compute. reflexivity.
Defined.

Lemma admin_routes_need_the_admin_key_witness :
  handle (H := Sample.crypto) Sample.now CreateBucket Cases.bare initial
  = (Answer (mkResponse 401 (JsonError "Unauthorized")), initial).
Proof.
  apply (admin_routes_need_the_admin_key (H := Sample.crypto));
    [reflexivity|discriminate].
Defined.

Lemma duplicate_bucket_is_refused_witness :
  let req := Sample.createBucketRequest Sample.idA "a" in
  let st := Sample.provisioned (H := Sample.crypto) in
  ∃ st',
    handle (H := Sample.crypto) Sample.now CreateBucket req st
    = (Answer (mkResponse 500 (JsonError "Failed to create bucket")), st')
    ∧ buckets st' = buckets st
    ∧ apiKeys st' = apiKeys st
    ∧ ∀ p, stored p st' = stored p st.
Proof.
  intros req st.
  apply (duplicate_bucket_is_refused (H := Sample.crypto)) with
    (accessKeyId := Sample.idA) (bucketName := "a");
    vm_compute; first [reflexivity|discriminate|by eexists].
Defined.

Lemma bucket_request_is_checked_witness :
  handle (H := Sample.crypto) Sample.now CreateBucket
    (Sample.createKeyRequest None) (Sample.issued (H := Sample.crypto))
  = (Answer (mkResponse 400 (JsonError "Missing accessKeyId or bucketName")),
     Sample.issued (H := Sample.crypto))
  ∧ handle (H := Sample.crypto) Sample.now CreateBucket
      (Sample.createBucketRequest Sample.idB "b")
      (Sample.issued (H := Sample.crypto))
    = (Answer (mkResponse 404 (JsonError "Access key not found")),
       Sample.issued (H := Sample.crypto)).
Proof.
  split.
  - apply (bucket_request_is_checked (H := Sample.crypto) Sample.now
             (Sample.createKeyRequest None)
             (Sample.issued (H := Sample.crypto)) eq_refl).
    reflexivity.
  - apply (bucket_request_is_checked (H := Sample.crypto) Sample.now
             (Sample.createBucketRequest Sample.idB "b")
             (Sample.issued (H := Sample.crypto)) eq_refl)
      with (accessKeyId := Sample.idB);
      vm_compute; first [reflexivity|discriminate].
Defined.

Lemma plain_names_keep_objects_apart_witness :
  objectPath Sample.idA "a" "f"
  = "storage/" +:+ Sample.idA +:+ "/" +:+ "a" +:+ "/" +:+ "f"
  ∧ (objectPath Sample.idA "a" "f" = objectPath Sample.idB "b" "g" →
     Sample.idA = Sample.idB ∧ "a" = "b" ∧ "f" = "g")
  ∧ (under Sample.idB (objectPath Sample.idA "a" "f") = true
     ↔ Sample.idB = Sample.idA).
Proof.
  apply plain_names_keep_objects_apart;
    (split; [reflexivity|]); repeat split; discriminate.
Defined.

Lemma free_plan_limit_is_inclusive_witness :
  checkStorageLimit Sample.idB 0 Sample.atLimit
  = (Ok (),
     set_apiKeys (insert Sample.idB
        (set_storageUsed (1024 * 1024 * 1024 + 0)
           (mkApiKey Sample.secretB "free" (1024 * 1024 * 1024))))
       Sample.atLimit)
  ∧ checkStorageLimit Sample.idB 1 Sample.atLimit
    = (Throw "Storage limit exceeded", Sample.atLimit).
Proof.
  split.
  - apply (free_plan_limit_is_inclusive Sample.idB
             (mkApiKey Sample.secretB "free" (1024 * 1024 * 1024)) 0
             Sample.atLimit); vm_compute; reflexivity.
  - apply (free_plan_limit_is_inclusive Sample.idB
             (mkApiKey Sample.secretB "free" (1024 * 1024 * 1024)) 1
             Sample.atLimit); vm_compute; reflexivity.
Defined.


Lemma upload_without_data_or_name_is_refused_witness :
  let st := Sample.provisioned (H := Sample.crypto) in
  let req := Cases.empty (H := Sample.crypto) in
  (body req = None →
   postObject (H := Sample.crypto) Sample.idA (userRoot Sample.idA) "a" req st
   = (mkResponse 400 (JsonError "No file or data uploaded"), st))
  ∧ (is_Some (body req) → js_truthy (xFileName req) = false →
     postObject (H := Sample.crypto) Sample.idA (userRoot Sample.idA) "a" req st
     = (mkResponse 400
          (JsonError "X-File-Name header is required for raw data uploads"), st)).
Proof.
  intros st req.
  apply (upload_without_data_or_name_is_refused (H := Sample.crypto));
    vm_compute; reflexivity.
Defined.

Lemma delete_undoes_upload_witness :
  let st := Sample.provisioned (H := Sample.crypto) in
  let st1 := (postObject (H := Sample.crypto) Sample.idA (userRoot Sample.idA) "a"
                (Cases.toFile (H := Sample.crypto)) st).2 in
  ∃ st2,
    deleteObject Sample.idA (userRoot Sample.idA) "a" "f" st1
    = (mkResponse 204 Empty, st2)
    ∧ bytesUsed Sample.idA st2 = Some (storageUsed Cases.keyA)
    ∧ stored (objectPath Sample.idA "a" "f") st2 = None
    ∧ (∀ p, p ≠ objectPath Sample.idA "a" "f" → disk st2 !! p = disk st !! p)
    ∧ deleteObject Sample.idA (userRoot Sample.idA) "a" "f" st2
      = (ObjectNotFound, st2).
Proof.
  intros st st1.
  apply (delete_undoes_upload (H := Sample.crypto)) with
    (req := Cases.toFile (H := Sample.crypto)) (data := Cases.content)
    (etag := "010203");
    vm_compute; reflexivity.
Defined.

Lemma credentials_are_permanent_witness :
  ∃ apiKey',
    apiKeys (run (H := Sample.crypto) (drop 1 Sample.provisioning)
               (Sample.issued (H := Sample.crypto))) !! Sample.idA
    = Some apiKey'
    ∧ secretAccessKey apiKey' = secretAccessKey Cases.keyA
    ∧ plan apiKey' = plan Cases.keyA.
Proof.
  apply (credentials_are_permanent (H := Sample.crypto)).
  vm_compute. reflexivity.
Defined.

Lemma buckets_are_permanent_witness :
  bucketExists Sample.idA "a"
    (run (H := Sample.crypto)
       [Sample.put (H := Sample.crypto) Sample.idA Sample.secretA "a" "f"
          Cases.content]
       (Sample.provisioned (H := Sample.crypto)))
  = true.
Proof.
  apply (buckets_are_permanent (H := Sample.crypto)).
  vm_compute. reflexivity.
Defined.

Lemma bytes_used_stays_within_the_limit_witness :
  (storageUsed (mkApiKey Sample.secretA "free" 4) ≤ 1024 * 1024 * 1024)%Z.
Proof.
  apply (bytes_used_stays_within_the_limit (H := Sample.crypto)
           (Sample.putTwice (H := Sample.crypto)) Sample.idA);
    vm_compute; reflexivity.
Defined.

Lemma putTwice_plain :
  Forall plainRequest (Sample.putTwice (H := Sample.crypto)).
Proof.
  unfold Sample.putTwice, Sample.provisioning. cbn [app].
  repeat apply Forall_cons_2; [..|apply Forall_nil_2].
  - discriminate.
  - discriminate.
  - exact I.
  - exact I.
  - intros key data [= <- <-]. repeat split; discriminate.
  - intros key data [= <- <-]. repeat split; discriminate.
Defined.

Lemma plain_names_keep_the_quota_sound_witness :
  let st := run (H := Sample.crypto) (Sample.putTwice (H := Sample.crypto)) initial in
  (0 ≤ storedBytes Sample.idA (disk st)
   ≤ storageUsed (mkApiKey Sample.secretA "free" 4))%Z
  ∧ ∀ limit, STORAGE_LIMITS (plan (mkApiKey Sample.secretA "free" 4)) = Some limit →
      (storedBytes Sample.idA (disk st) ≤ limit)%Z.
Proof.
  apply (plain_names_keep_the_quota_sound (H := Sample.crypto)).
  - exact putTwice_plain.
  - vm_compute. reflexivity.
Defined.

Lemma reading_changes_nothing_witness :
  let st := Sample.issued (H := Sample.crypto) in
  let st' := (handle (H := Sample.crypto) Sample.now ListBuckets
                (Cases.listing (H := Sample.crypto)) st).2 in
  apiKeys st' = apiKeys st
  ∧ buckets st' = buckets st
  ∧ ∀ p, stored p st' = stored p st.
Proof.
  apply (reading_changes_nothing (H := Sample.crypto)). reflexivity.
Defined.

Lemma plain_names_keep_owners_apart_witness :
  let st := Sample.provisioned (H := Sample.crypto) in
  let st' := (handle (H := Sample.crypto) Sample.now (PostObject "a")
                (Cases.toFile (H := Sample.crypto)) st).2 in
  apiKeys st' !! Sample.idB = apiKeys st !! Sample.idB
  ∧ (∀ p, under Sample.idB p = true → disk st' !! p = disk st !! p)
  ∧ storedBytes Sample.idB (disk st') = storedBytes Sample.idB (disk st).
Proof.
  apply (plain_names_keep_owners_apart (H := Sample.crypto)) with
    (a := Sample.idA).
  - reflexivity.
  - intros key data [= <- <-]. repeat split; discriminate.
  - reflexivity.
  - repeat split; discriminate.
  - repeat split; discriminate.
  - discriminate.
Defined.


Lemma unparseable_timestamp_skips_freshness_witness :
  let req := Sample.signedAt (H := Sample.crypto) "long ago" Sample.idA
               Sample.secretA "GET" "/buckets" None None in
  authenticateRequest (H := Sample.crypto) Sample.now req Sample.unlisted
  ≠ Responded RequestExpired
  ∧ authenticateRequest (H := Sample.crypto) Sample.now req Sample.unlisted
    = Next (userRoot Sample.idA)
        (set_disk (insert (userRoot Sample.idA) Dir) Sample.unlisted).
Proof.
  intros req.
  destruct (unparseable_timestamp_skips_freshness (H := Sample.crypto)
              Sample.now req Sample.unlisted Sample.idA
              (hmac_sha256_hex (Crypto := Sample.crypto) Sample.secretA
                 ("GET" +:+ "/buckets" +:+ "long ago"))
              "long ago"
              (mkApiKey Sample.secretA "pro" (5 * 1024 * 1024 * 1024)))
    as [Hnever Hpass]; [reflexivity | vm_compute; reflexivity |].
  split; [apply Hnever|]. apply Hpass.
  - reflexivity.
  - repeat split; discriminate.
  - reflexivity.
  - vm_compute. discriminate.
  - discriminate.
  - vm_compute. reflexivity.
  - vm_compute. reflexivity.
  - vm_compute. reflexivity.
  - intros d. vm_compute. discriminate.
Defined.


Lemma issued_credential_authenticates_witness :
  let st1 := (handle (H := Sample.crypto) Sample.now
                (CreateAccessKey Sample.randomA16 Sample.randomA32)
                (Sample.createKeyRequest None) initial).2 in
  let st2 := run (H := Sample.crypto) (drop 1 Sample.provisioning) st1 in
  handle (H := Sample.crypto) Sample.now
    (CreateAccessKey Sample.randomA16 Sample.randomA32)
    (Sample.createKeyRequest None) initial
  = (Answer (mkResponse 200
               (JsonAccessKey Sample.idA Sample.secretA "free")), st1)
  ∧ authenticateRequest (H := Sample.crypto) Sample.now
      (Cases.listing (H := Sample.crypto)) st2
    = Next ("storage/" +:+ Sample.idA)
        (set_disk (insert ("storage/" +:+ Sample.idA) Dir) st2).
Proof.
  intros st1 st2.
  destruct (issued_credential_authenticates (H := Sample.crypto) Sample.now
              Sample.randomA16 Sample.randomA32 (Sample.createKeyRequest None)
              initial) as (st1' & Hh & _ & _ & _ & Hauth);
    [reflexivity | discriminate | vm_compute; reflexivity |].
  assert (st1' = st1) as -> by (unfold st1; by rewrite Hh).
  split; [exact Hh|].
  apply (Hauth (drop 1 Sample.provisioning) Sample.now
           (Cases.listing (H := Sample.crypto)) Sample.timestamp
           (hmac_sha256_hex (Crypto := Sample.crypto) Sample.secretA
              ("GET" +:+ "/buckets" +:+ Sample.timestamp))).
  - reflexivity.
  - reflexivity.
  - discriminate.
  - vm_compute. reflexivity.
  - reflexivity.
  - vm_compute. discriminate.
  - vm_compute. reflexivity.
  - vm_compute. reflexivity.
  - intros d. vm_compute. discriminate.
Defined.

